(** * PhotoPin: the domain logic of photopin-api, embedded and verified

    The logic module of photopin-api is a flat object of asynchronous
    operations over three Mongoose models (User, PMap, Pin).  Each
    operation validates its arguments, then runs a sequence of store
    calls; there is no transaction, so whatever a failed operation has
    written stays written.

    The embedding follows that shape:
    - documents are records, a Mongo collection is a finite map from
      [_id] to document (the primary key is unique by construction);
    - an operation is a computation in a state-and-exception monad over
      a [World]: the three collections, the log of store calls issued so
      far, and a counter standing for the randomness bcrypt draws its
      salt from;
    - an exception keeps the world reached when it was thrown. *)

From Stdlib Require Import QArith.
From stdpp Require Import base strings list gmap fin_maps.

Local Open Scope string_scope.
Local Open Scope list_scope.
Local Open Scope Z_scope.

(** ** Documents *)

Abbreviation Id := string.

(** A JS number; the logic only copies the two coordinates around. *)
Abbreviation Number := Q.

(** Modelled from the spec: the schemas of photopin-data are not among
    the sources.  A User has the fields [retrieveUser] selects, plus the
    password digest. *)
Record User := mkUser {
  user_name : string;
  user_surname : string;
  user_email : string;
  user_password : string;
  user_avatar : option string;
  user_language : option string;
  user_favoritePublicMap : option Id
}.

(** Modelled from the spec: a Collection is embedded in its Map; it has
    a title and an ordered sequence of pin references. *)
Record Collection := mkCollection {
  col_title : string;
  col_pins : list Id
}.

(** Modelled from the spec: a Map has the three text fields [createMap]
    and [updateMap] write, the visibility flag [retrieveUserMap] reads,
    its author and its ordered sequence of Collections. *)
Record PMap := mkPMap {
  map_title : string;
  map_description : string;
  map_coverImage : string;
  map_isPublic : bool;
  map_author : Id;
  map_collections : list Collection
}.

Record Coordinates := mkCoordinates {
  latitude : Number;
  longitude : Number
}.

(** Modelled from the spec: a Pin has the fields [createPin] writes.  A
    text field may be [undefined]: [updatePin] writes whatever the
    request body holds. *)
Record Pin := mkPin {
  pin_mapId : Id;
  pin_author : Id;
  pin_title : option string;
  pin_description : option string;
  pin_urlImage : option string;
  pin_bestTimeOfYear : option string;
  pin_bestTimeOfDay : option string;
  pin_photographyTips : option string;
  pin_travelInformation : option string;
  pin_coordinates : Coordinates
}.

(** ** Request payloads (plain objects; [None] is an absent key) *)

Record UserData := mkUserData {
  ud_name : option string;
  ud_surname : option string;
  ud_email : option string;
  ud_password : option string;
  ud_avatar : option string;
  ud_language : option string;
  ud_favoritePublicMap : option Id
}.

Record MapData := mkMapData {
  md_title : option string;
  md_description : option string;
  md_coverImage : option string
}.

Record PinData := mkPinData {
  pd_title : option string;
  pd_description : option string;
  pd_urlImage : option string;
  pd_bestTimeOfYear : option string;
  pd_bestTimeOfDay : option string;
  pd_photographyTips : option string;
  pd_travelInformation : option string
}.

Record NewPin := mkNewPin {
  np_data : PinData;
  np_coordinates : option Coordinates
}.

(** ** Values handed back to the caller *)

(** [retrieveUser]: select("-_id name surname email avatar language
    favoritePublicMap"). *)
Record UserProfile := mkUserProfile {
  up_name : string;
  up_surname : string;
  up_email : string;
  up_avatar : option string;
  up_language : option string;
  up_favoritePublicMap : option Id
}.

(** [updateUser]: select("-__v -password"), with [_id] renamed to [id]. *)
Record UserView := mkUserView {
  uv_id : Id;
  uv_profile : UserProfile
}.

(** [retrieveUserMap]: the map with "collections.pins" populated. *)
Record CollectionView := mkCollectionView {
  cv_title : string;
  cv_pins : list (Id * Pin)
}.

Record MapView := mkMapView {
  mv_id : Id;
  mv_title : string;
  mv_description : string;
  mv_coverImage : string;
  mv_isPublic : bool;
  mv_author : Id;
  mv_collections : list CollectionView
}.

(** ** Errors *)

(** photopin-errors: the validation family is folded into one
    constructor carrying the name of the offending argument.  A
    [JsTypeError] is what the runtime throws on a property access
    through [null] or [undefined].  A [CastError] is what Mongoose
    throws when a string given as an [_id] or as a reference is not an
    ObjectId; it carries the string. *)
Inductive Error :=
| ValidationError (argName : string)
| LogicError (message : string)
| JsTypeError (message : string)
| CastError (value : string).

Inductive Result (A : Type) :=
| Ok (a : A)
| Err (e : Error).
Arguments Ok {A} a.
Arguments Err {A} e.

Definition isLogicError {A} (r : Result A) : Prop :=
  match r with Err (LogicError _) => True | _ => False end.

Definition isOk {A} (r : Result A) : Prop :=
  match r with Ok _ => True | Err _ => False end.

(** ** The world: store, call log, entropy *)

Record Store := mkStore {
  users : gmap Id User;
  maps : gmap Id PMap;
  pins : gmap Id Pin
}.

Inductive Model := MUser | MPMap | MPin.

Inductive Verb :=
| VfindOne | Vfind | VfindById | Vcreate | Vsave | Vpopulate
| VfindByIdAndUpdate | VfindByIdAndDelete | VfindOneAndDelete | VdeleteMany.

Inductive Filter :=
| ById (i : Id)
| ByEmail (e : string)
| ByAuthor (a : Id)
| ByMapId (m : Id)
| ByIdIn (l : list Id)
| ByIdAndAuthor (i a : Id).

Record Call := mkCall {
  call_model : Model;
  call_verb : Verb;
  call_filter : Filter
}.

Record World := mkWorld {
  db : Store;
  log : list Call;
  entropy : nat
}.

(** ** The monad of asynchronous operations *)

Definition M (A : Type) : Type := World → Result A * World.

Definition ret {A} (a : A) : M A := λ w, (Ok a, w).

Definition bind {A B} (m : M A) (k : A → M B) : M B :=
  λ w, match m w with
       | (Ok a, w') => k a w'
       | (Err e, w') => (Err e, w')
       end.

Definition throw {A} (e : Error) : M A := λ w, (Err e, w).

(** try { body } catch (error) { handler }: the handler runs in the
    world the body had reached. *)
Definition try_catch {A} (body : M A) (handler : Error → M A) : M A :=
  λ w, match body w with
       | (Ok a, w') => (Ok a, w')
       | (Err e, w') => handler e w'
       end.

#[global] Instance M_ret : MRet M := @ret.
#[global] Instance M_bind : MBind M := λ A B k m, bind m k.

Definition issue (c : Call) : M unit :=
  λ w, (Ok tt, mkWorld (db w) (log w ++ [c]) (entropy w)).

Definition getStore : M Store := λ w, (Ok (db w), w).

Definition putStore (s : Store) : M unit :=
  λ w, (Ok tt, mkWorld s (log w) (entropy w)).

Definition drawEntropy : M nat :=
  λ w, (Ok (entropy w), mkWorld (db w) (log w) (S (entropy w))).

Definition setUsers (m : gmap Id User) (s : Store) : Store :=
  mkStore m (maps s) (pins s).
Definition setMaps (m : gmap Id PMap) (s : Store) : Store :=
  mkStore (users s) m (pins s).
Definition setPins (m : gmap Id Pin) (s : Store) : Store :=
  mkStore (users s) (maps s) m.

(** ** What the logic module requires from outside

    bcrypt, the ObjectId generator of the driver, the e-mail check of
    photopin-validate and the defaults of the photopin-data schemas are
    not part of the logic module; they are taken as an interface. *)
Class Platform := {
  (** validate.email: is the string a well-formed address? *)
  email_wellFormed : string → bool;
  (** bcrypt.hash(plaintext, rounds), salted from the drawn entropy *)
  bcrypt_hash : string → nat → nat → string;
  (** bcrypt.compare(plaintext, digest) *)
  bcrypt_compare : string → string → bool;
  (** the [_id] given to a created document, given the ids in use *)
  ObjectId_new : gset Id → Id;
  (** ObjectId.isValid: does the string cast to an ObjectId? *)
  ObjectId_isValid : Id → bool;
  (** the ids the driver generates are ObjectIds *)
  ObjectId_new_isValid : ∀ used, ObjectId_isValid (ObjectId_new used) = true;
  schema_avatar_default : option string;
  schema_language_default : option string;
  schema_isPublic_default : bool
}.

(** ** JavaScript helpers *)

(** Truthiness of a string: only the empty string is falsy. *)
Definition js_truthy (s : string) : bool := negb (bool_decide (s = "")).

(** Truthiness of a possibly absent property ([undefined] is falsy). *)
Definition js_truthy_prop (o : option string) : bool :=
  match o with
  | Some s => js_truthy s
  | None => false
  end.

(** An array is an object: it is truthy even when empty. *)
Definition js_truthy_array {A} (l : list A) : bool := true.

(** Array.prototype.findIndex: the first index whose element satisfies
    the predicate, or -1. *)
Fixpoint findIndex {A} (p : A → bool) (l : list A) : Z :=
  match l with
  | [] => -1
  | x :: l' =>
      if p x then 0
      else let i := findIndex p l' in if i <? 0 then -1 else i + 1
  end.

(** [arr[i]]: [undefined] out of range, negative indices included. *)
Definition js_index {A} (l : list A) (i : Z) : option A :=
  if i <? 0 then None else l !! Z.to_nat i.

(** ObjectId.prototype.equals against an id string. *)
Definition ObjectId_equals (a b : Id) : bool := bool_decide (a = b).

(** ** photopin-validate *)

Inductive ArgValue :=
| AString (s : string)
| AObject.

Record ArgSpec := mkArg {
  arg_name : string;
  arg_value : ArgValue;
  arg_notEmpty : bool
}.

Definition arg_bad (a : ArgSpec) : bool :=
  match arg_value a with
  | AString s => arg_notEmpty a && bool_decide (s = "")
  | AObject => false
  end.

(** Modelled from the spec: photopin-validate is not among the sources.
    The spec has it reject an empty string (where [notEmpty] is asked)
    before any store access; the type checks hold by typing here. *)
Fixpoint validate_arguments (l : list ArgSpec) : M unit :=
  match l with
  | [] => ret tt
  | a :: l' =>
      if arg_bad a then throw (ValidationError (arg_name a))
      else validate_arguments l'
  end.

Definition str (name value : string) : ArgSpec :=
  mkArg name (AString value) true.
Definition strOpt (name value : string) : ArgSpec :=
  mkArg name (AString value) false.
Definition obj (name : string) : ArgSpec := mkArg name AObject true.

(** ** Query filters *)

(** A condition on a path the schema lacks matches no document. *)
Definition matchesUser (f : Filter) (i : Id) (u : User) : bool :=
  match f with
  | ById j => bool_decide (i = j)
  | ByEmail e => bool_decide (user_email u = e)
  | ByIdIn l => bool_decide (i ∈ l)
  | ByAuthor _ | ByMapId _ | ByIdAndAuthor _ _ => false
  end.

Definition matchesPMap (f : Filter) (i : Id) (m : PMap) : bool :=
  match f with
  | ById j => bool_decide (i = j)
  | ByAuthor a => bool_decide (map_author m = a)
  | ByIdIn l => bool_decide (i ∈ l)
  | ByIdAndAuthor j a => bool_decide (i = j) && bool_decide (map_author m = a)
  | ByEmail _ | ByMapId _ => false
  end.

Definition matchesPin (f : Filter) (i : Id) (p : Pin) : bool :=
  match f with
  | ById j => bool_decide (i = j)
  | ByAuthor a => bool_decide (pin_author p = a)
  | ByMapId m => bool_decide (pin_mapId p = m)
  | ByIdIn l => bool_decide (i ∈ l)
  | ByIdAndAuthor j a => bool_decide (i = j) && bool_decide (pin_author p = a)
  | ByEmail _ => false
  end.

(** The documents of a collection that a filter keeps out of a
    deleteMany. *)
Definition survivors {A} (matches : Filter → Id → A → bool) (f : Filter)
    (m : gmap Id A) : gmap Id A :=
  filter (λ kv, matches f kv.1 kv.2 = false) m.

(** ** Field updates *)

(** [$set]: a key present in the payload overwrites, whatever it holds. *)
Definition applyUserData (d : UserData) (u : User) : User :=
  mkUser (default (user_name u) (ud_name d))
         (default (user_surname u) (ud_surname d))
         (default (user_email u) (ud_email d))
         (default (user_password u) (ud_password d))
         (from_option Some (user_avatar u) (ud_avatar d))
         (from_option Some (user_language u) (ud_language d))
         (from_option Some (user_favoritePublicMap u) (ud_favoritePublicMap d)).

Definition profileOf (u : User) : UserProfile :=
  mkUserProfile (user_name u) (user_surname u) (user_email u)
                (user_avatar u) (user_language u) (user_favoritePublicMap u).

Definition setTitle (t : string) (m : PMap) : PMap :=
  mkPMap t (map_description m) (map_coverImage m) (map_isPublic m)
         (map_author m) (map_collections m).
Definition setDescription (d : string) (m : PMap) : PMap :=
  mkPMap (map_title m) d (map_coverImage m) (map_isPublic m)
         (map_author m) (map_collections m).
Definition setCoverImage (c : string) (m : PMap) : PMap :=
  mkPMap (map_title m) (map_description m) c (map_isPublic m)
         (map_author m) (map_collections m).
Definition setCollections (cs : list Collection) (m : PMap) : PMap :=
  mkPMap (map_title m) (map_description m) (map_coverImage m) (map_isPublic m)
         (map_author m) cs.

(** [if (data.f) map.f = data.f] *)
Definition assignIfTruthy (field : option string) (setter : string → PMap → PMap)
    (m : PMap) : PMap :=
  match field with
  | Some v => if js_truthy v then setter v m else m
  | None => m
  end.

Definition overwritePin (d : PinData) (p : Pin) : Pin :=
  mkPin (pin_mapId p) (pin_author p)
        (pd_title d) (pd_description d) (pd_urlImage d)
        (pd_bestTimeOfYear d) (pd_bestTimeOfDay d)
        (pd_photographyTips d) (pd_travelInformation d)
        (pin_coordinates p).

(** ** The Mongoose models: every call is logged, then acts on the store

    The queries that take an id from the caller ([findById],
    [findByIdAndUpdate], [find], [findOneAndDelete]) cast it first and
    may throw a CastError.  [save], [deleteMany] and
    [findByIdAndDelete] are only reached with ids an earlier query of
    the same operation has resolved, and [create] stores the document
    it is handed. *)

Section Models.
Context `{Platform}.

(** Is there a document? *)
Definition isStored {A} (o : option A) : bool :=
  match o with
  | Some _ => true
  | None => false
  end.

(** Before it sends a query, Mongoose casts the strings the query gives
    for [_id] and for reference paths to ObjectIds, and throws a
    CastError on a string that is not one.  What the store holds under
    [_id] is an ObjectId: [known] says that the string is the id of a
    stored document (and, for a second path of the same filter, that
    the document holds the string there), so that it casts. *)
Definition castObjectId (known : bool) (i : Id) : M unit :=
  if known || ObjectId_isValid i then ret tt else throw (CastError i).

(** The strings of a filter are cast one by one: the first that does
    not cast is reported. *)
Definition castObjectIds (ids : list Id) : M unit :=
  match List.find (λ i, negb (ObjectId_isValid i)) ids with
  | Some i => throw (CastError i)
  | None => ret tt
  end.

(** The strings a filter gives for [_id] and for reference paths. *)
Definition filterIds (f : Filter) : list Id :=
  match f with
  | ById i => [i]
  | ByEmail _ => []
  | ByAuthor a => [a]
  | ByMapId m => [m]
  | ByIdIn l => l
  | ByIdAndAuthor i a => [i; a]
  end.

(** Modelled from the spec: find-by-filter, one document or a not-found
    indication.  Which of several matching documents comes back is the
    store's choice; here, the first in the enumeration of the map. *)
Definition User_findOne (f : Filter) : M (option (Id * User)) :=
  issue (mkCall MUser VfindOne f);;
  s ← getStore;
  mret (List.find (λ kv, matchesUser f kv.1 kv.2) (map_to_list (users s))).

(** Modelled from the spec: find-by-id; a string that is no ObjectId
    makes the call throw. *)
Definition User_findById (i : Id) : M (option User) :=
  s ← getStore;
  castObjectId (isStored (users s !! i)) i;;
  issue (mkCall MUser VfindById (ById i));;
  mret (users s !! i).

(** Modelled from the spec: create.  User.create({name, surname, email,
    password}): the other paths take the schema defaults. *)
Definition User_create (name surname email password : string) : M Id :=
  s ← getStore;
  let i := ObjectId_new (dom (users s)) in
  issue (mkCall MUser Vcreate (ById i));;
  putStore (setUsers (<[i := mkUser name surname email password
                                 schema_avatar_default
                                 schema_language_default None]> (users s)) s);;
  mret i.

(** Modelled from the spec: partial update by id.  findByIdAndUpdate(id,
    {$set: data}) hands back the document as it was found (the [new]
    option is not set), or [null]. *)
Definition User_findByIdAndUpdate (i : Id) (data : UserData) : M (option User) :=
  s ← getStore;
  castObjectId (isStored (users s !! i)) i;;
  issue (mkCall MUser VfindByIdAndUpdate (ById i));;
  match users s !! i with
  | Some u =>
      putStore (setUsers (<[i := applyUserData data u]> (users s)) s);;
      mret (Some u)
  | None => mret None
  end.

(** Modelled from the spec: delete-one by id, handing back the deleted
    document or [null]. *)
Definition User_findByIdAndDelete (i : Id) : M (option User) :=
  issue (mkCall MUser VfindByIdAndDelete (ById i));;
  s ← getStore;
  putStore (setUsers (delete i (users s)) s);;
  mret (users s !! i).

(** Modelled from the spec: find-by-filter, all matching documents, as
    an array; a string of the filter that is no ObjectId makes the call
    throw. *)
Definition PMap_find (f : Filter) : M (list (Id * PMap)) :=
  s ← getStore;
  castObjectIds (filterIds f);;
  issue (mkCall MPMap Vfind f);;
  mret (List.filter (λ kv, matchesPMap f kv.1 kv.2) (map_to_list (maps s))).

(** Modelled from the spec: find-by-id; a string that is no ObjectId
    makes the call throw. *)
Definition PMap_findById (i : Id) : M (option PMap) :=
  s ← getStore;
  castObjectId (isStored (maps s !! i)) i;;
  issue (mkCall MPMap VfindById (ById i));;
  mret (maps s !! i).

(** Modelled from the spec: create.  PMap.create({title, description,
    coverImage, author}): no collections yet, visibility by default. *)
Definition PMap_create (title description coverImage : string) (author : Id)
    : M Id :=
  s ← getStore;
  let i := ObjectId_new (dom (maps s)) in
  issue (mkCall MPMap Vcreate (ById i));;
  putStore (setMaps (<[i := mkPMap title description coverImage
                                schema_isPublic_default author []]> (maps s)) s);;
  mret i.

(** Modelled from the spec: full update.  doc.save() of a document
    obtained by findById writes it back under its id. *)
Definition PMap_save (i : Id) (m : PMap) : M PMap :=
  issue (mkCall MPMap Vsave (ById i));;
  s ← getStore;
  putStore (setMaps (<[i := m]> (maps s)) s);;
  mret m.

(** Modelled from the spec: delete-many by filter. *)
Definition PMap_deleteMany (f : Filter) : M unit :=
  issue (mkCall MPMap VdeleteMany f);;
  s ← getStore;
  putStore (setMaps (survivors matchesPMap f (maps s)) s).

(** Modelled from the spec: delete-one by id. *)
Definition PMap_findByIdAndDelete (i : Id) : M (option PMap) :=
  issue (mkCall MPMap VfindByIdAndDelete (ById i));;
  s ← getStore;
  putStore (setMaps (delete i (maps s)) s);;
  mret (maps s !! i).

(** Modelled from the spec: create. *)
Definition Pin_create (p : Pin) : M Id :=
  s ← getStore;
  let i := ObjectId_new (dom (pins s)) in
  issue (mkCall MPin Vcreate (ById i));;
  putStore (setPins (<[i := p]> (pins s)) s);;
  mret i.

(** Modelled from the spec: find-by-id; a string that is no ObjectId
    makes the call throw. *)
Definition Pin_findById (i : Id) : M (option Pin) :=
  s ← getStore;
  castObjectId (isStored (pins s !! i)) i;;
  issue (mkCall MPin VfindById (ById i));;
  mret (pins s !! i).

(** Modelled from the spec: full update. *)
Definition Pin_save (i : Id) (p : Pin) : M Pin :=
  issue (mkCall MPin Vsave (ById i));;
  s ← getStore;
  putStore (setPins (<[i := p]> (pins s)) s);;
  mret p.

(** Modelled from the spec: delete-many by filter. *)
Definition Pin_deleteMany (f : Filter) : M unit :=
  issue (mkCall MPin VdeleteMany f);;
  s ← getStore;
  putStore (setPins (survivors matchesPin f (pins s)) s).

(** Modelled from the spec: delete-one by filter.  findOneAndDelete({_id,
    author}): the one document with that id, if its author matches, is
    removed and handed back; else [null].  A string of the filter that
    is no ObjectId makes the call throw. *)
Definition Pin_findOneAndDelete (i a : Id) : M (option Pin) :=
  s ← getStore;
  castObjectId (isStored (pins s !! i)) i;;
  castObjectId (match pins s !! i with
                | Some p => bool_decide (pin_author p = a)
                | None => false
                end) a;;
  issue (mkCall MPin VfindOneAndDelete (ByIdAndAuthor i a));;
  match pins s !! i with
  | Some p =>
      if matchesPin (ByIdAndAuthor i a) i p
      then putStore (setPins (delete i (pins s)) s);; mret (Some p)
      else mret None
  | None => mret None
  end.

(** Modelled from the spec: the "populate" join materializes the Pins
    of a Collection; a reference that resolves to nothing is dropped
    from its array. *)
Definition resolvePins (ps : gmap Id Pin) (c : Collection) : CollectionView :=
  mkCollectionView (col_title c)
                   (omap (λ i, (λ p, (i, p)) <$> ps !! i) (col_pins c)).

(** populate("collections.pins"): one query for all referenced pins. *)
Definition populate_collections_pins (cs : list Collection)
    : M (list CollectionView) :=
  issue (mkCall MPin Vpopulate (ByIdIn (concat (col_pins <$> cs))));;
  s ← getStore;
  mret (resolvePins (pins s) <$> cs).

(** bcrypt.hash draws its salt from the entropy of the world. *)
Definition bcrypt_hashM (plaintext : string) (rounds : nat) : M string :=
  salt ← drawEntropy;
  mret (bcrypt_hash plaintext rounds salt).

Definition validate_email (email : string) : M unit :=
  if email_wellFormed email then ret tt
  else throw (ValidationError "email").

End Models.

(** ** The logic module *)

Section Logic.
Context `{Platform}.

Definition registerUser (name surname email password : string) : M Id :=
  validate_arguments [str "name" name; str "surname" surname;
                      str "email" email; str "password" password];;
  validate_email email;;
  user ← User_findOne (ByEmail email);
  match user with
  | Some _ =>
      throw (LogicError ("user with email " +:+ email +:+ " already exists"))
  | None =>
      hash ← bcrypt_hashM password 10;
      newUser ← User_create name surname email hash;
      mret newUser
  end.

Definition authenticateUser (email password : string) : M Id :=
  validate_arguments [str "email" email; str "password" password];;
  validate_email email;;
  user ← User_findOne (ByEmail email);
  match user with
  | None =>
      throw (LogicError ("user with email " +:+ email +:+ " doesn't exists"))
  | Some (id, user) =>
      if bcrypt_compare password (user_password user) then mret id
      else throw (LogicError "wrong credentials")
  end.

Definition retrieveUser (userId : Id) : M UserProfile :=
  validate_arguments [str "userId" userId];;
  user ← User_findById userId;
  match user with
  | None =>
      throw (LogicError ("user with id " +:+ userId +:+ " doesn't exists"))
  | Some user => mret (profileOf user)
  end.

Definition updateUser (userId : Id) (data : UserData) : M UserView :=
  validate_arguments [str "id" userId; obj "data"];;
  try_catch
    (result ← User_findByIdAndUpdate userId data;
     match result with
     | None => throw (JsTypeError "Cannot read property '_id' of null")
     | Some result => mret (mkUserView userId (profileOf result))
     end)
    (λ _, throw (LogicError
                   ("user with id " +:+ userId +:+ " doesn't exists"))).

Definition removeUser (userId : Id) : M (option User) :=
  validate_arguments [str "id" userId];;
  user ← User_findById userId;
  match user with
  | None =>
      throw (LogicError ("user with id " +:+ userId +:+ " doesn't exists"))
  | Some _ =>
      Pin_deleteMany (ByAuthor userId);;
      PMap_deleteMany (ByAuthor userId);;
      User_findByIdAndDelete userId
  end.

Definition retrieveUserMaps (userId : Id) : M (list (Id * PMap)) :=
  validate_arguments [str "userId" userId];;
  maps ← PMap_find (ByAuthor userId);
  if negb (js_truthy_array maps)
  then throw (LogicError ("no maps for user with id " +:+ userId))
  else mret maps.

Definition retrieveUserMap (userId mapId : Id) : M MapView :=
  validate_arguments [str "userId" userId; str "mapId" mapId];;
  map ← PMap_findById mapId;
  match map with
  | None => throw (LogicError ("no maps for user with id " +:+ mapId))
  | Some map =>
      collections ← populate_collections_pins (map_collections map);
      if negb (map_isPublic map) && negb (ObjectId_equals (map_author map) userId)
      then throw (LogicError ("map " +:+ mapId +:+ " is not from user "
                              +:+ userId))
      else mret (mkMapView mapId (map_title map) (map_description map)
                           (map_coverImage map) (map_isPublic map)
                           (map_author map) collections)
  end.

Definition createMap (userId : Id) (title description coverImage : string)
    : M Id :=
  validate_arguments [str "userId" userId; str "title" title;
                      strOpt "description" description;
                      strOpt "coverImage" coverImage];;
  newMap ← PMap_create title description coverImage userId;
  mret newMap.

Definition updateMap (userId mapId : Id) (data : MapData) : M PMap :=
  validate_arguments [str "userId" userId; str "mapId" mapId; obj "data"];;
  map ← PMap_findById mapId;
  match map with
  | None => throw (LogicError ("no map with id " +:+ mapId))
  | Some map =>
      if negb (ObjectId_equals (map_author map) userId)
      then throw (LogicError ("map " +:+ mapId +:+ " is not from user "
                              +:+ userId))
      else
        try_catch
          (let map := assignIfTruthy (md_title data) setTitle map in
           let map := assignIfTruthy (md_description data) setDescription map in
           let map := assignIfTruthy (md_coverImage data) setCoverImage map in
           result ← PMap_save mapId map;
           mret result)
          (λ _, throw (LogicError ("error updating map with id " +:+ mapId)))
  end.

Definition createCollection (userId mapId : Id) (collectionTitle : string)
    : M nat :=
  validate_arguments [str "userId" userId; str "mapId" mapId;
                      str "collectionTitle" collectionTitle];;
  map ← PMap_findById mapId;
  match map with
  | None => throw (LogicError ("no maps with id " +:+ mapId))
  | Some map =>
      if negb (ObjectId_equals (map_author map) userId)
      then throw (LogicError ("map " +:+ mapId +:+ " is not from user "
                              +:+ userId))
      else
        try_catch
          (let collections :=
             (map_collections map ++ [mkCollection collectionTitle []])%list in
           let numCol := List.length collections in
           PMap_save mapId (setCollections collections map);;
           mret numCol)
          (λ _, throw (LogicError
                         ("error creating new collection on map " +:+ mapId)))
  end.

Definition updateCollection (userId mapId : Id)
    (collectionTitle newTitle : string) : M unit :=
  validate_arguments [str "userId" userId; str "mapId" mapId;
                      str "collectionTitle" collectionTitle;
                      str "newTitle" newTitle];;
  pmap ← PMap_findById mapId;
  match pmap with
  | None => throw (LogicError ("no maps with id " +:+ mapId))
  | Some pmap =>
      if negb (ObjectId_equals (map_author pmap) userId)
      then throw (LogicError ("map " +:+ mapId +:+ " is not from user "
                              +:+ userId))
      else
        let colIndex :=
          findIndex (λ col, bool_decide (col_title col = collectionTitle))
                    (map_collections pmap) in
        let colIndexNewTitle :=
          findIndex (λ col, bool_decide (col_title col = newTitle))
                    (map_collections pmap) in
        if colIndexNewTitle >? 0
        then throw (LogicError ("error updating, collection " +:+ newTitle
                                +:+ " already exist on map " +:+ mapId))
        else
          try_catch
            (match js_index (map_collections pmap) colIndex with
             | None =>
                 throw (JsTypeError
                          "Cannot set property 'title' of undefined")
             | Some col =>
                 PMap_save mapId
                   (setCollections
                      (<[Z.to_nat colIndex :=
                           mkCollection newTitle (col_pins col)]>
                         (map_collections pmap)) pmap);;
                 mret tt
             end)
            (λ _, throw (LogicError ("error updating collection "
                                     +:+ collectionTitle +:+ " on map "
                                     +:+ mapId)))
  end.

Definition createPin (userId mapId : Id) (collectionTitle : string)
    (newPin : NewPin) : M Id :=
  validate_arguments [str "userId" userId; str "mapId" mapId;
                      str "collectionTitle" collectionTitle; obj "newPin"];;
  pmap ← try_catch (PMap_findById mapId)
           (λ _, throw (LogicError ("no maps for user with id " +:+ mapId)));
  match pmap with
  | None => throw (LogicError ("no maps for user with id " +:+ mapId))
  | Some pmap =>
      if negb (ObjectId_equals (map_author pmap) userId)
      then throw (LogicError ("map " +:+ mapId +:+ " is not from user "
                              +:+ userId))
      else
        let colIndex :=
          findIndex (λ col, bool_decide (col_title col = collectionTitle))
                    (map_collections pmap) in
        if colIndex <? 0
        then throw (LogicError ("collection " +:+ collectionTitle
                                +:+ " not found"))
        else
          try_catch
            (match np_coordinates newPin with
             | None =>
                 throw (JsTypeError
                          "Cannot read property 'latitude' of undefined")
             | Some coordinates =>
                 let d := np_data newPin in
                 pinCreated ←
                   Pin_create
                     (mkPin mapId userId (pd_title d) (pd_description d)
                            (pd_urlImage d) (pd_bestTimeOfYear d)
                            (pd_bestTimeOfDay d) (pd_photographyTips d)
                            (pd_travelInformation d)
                            (mkCoordinates (latitude coordinates)
                                           (longitude coordinates)));
                 match js_index (map_collections pmap) colIndex with
                 | None =>
                     throw (JsTypeError
                              "Cannot read property 'pins' of undefined")
                 | Some col =>
                     PMap_save mapId
                       (setCollections
                          (<[Z.to_nat colIndex :=
                               mkCollection (col_title col)
                                 (col_pins col ++ [pinCreated])%list]>
                             (map_collections pmap)) pmap);;
                     mret pinCreated
                 end
             end)
            (λ _, throw (LogicError
                           ("error creating new pin on map " +:+ mapId)))
  end.

Definition updatePin (userId pinId : Id) (data : PinData) : M Pin :=
  validate_arguments [str "userId" userId; str "pinId" pinId; obj "data"];;
  pin ← Pin_findById pinId;
  match pin with
  | None => throw (LogicError ("no pin with id " +:+ pinId))
  | Some pin =>
      if negb (ObjectId_equals (pin_author pin) userId)
      then throw (LogicError ("pin " +:+ pinId +:+ " is not from user "
                              +:+ userId))
      else
        try_catch
          (result ← Pin_save pinId (overwritePin data pin);
           mret result)
          (λ _, throw (LogicError ("error updating pin with id " +:+ pinId)))
  end.

Definition removeMap (userId mapId : Id) : M (option PMap) :=
  validate_arguments [str "userId" userId; str "mapId" mapId];;
  map ← PMap_findById mapId;
  match map with
  | None =>
      throw (LogicError ("map with id " +:+ mapId +:+ " doesn't exists"))
  | Some map =>
      if negb (ObjectId_equals (map_author map) userId)
      then throw (LogicError ("map " +:+ mapId +:+ " is not from user "
                              +:+ userId))
      else
        Pin_deleteMany (ByMapId mapId);;
        PMap_findByIdAndDelete mapId
  end.

Definition removeCollection (userId mapId : Id) (collectionTitle : string)
    : M PMap :=
  validate_arguments [str "userId" userId; str "mapId" mapId;
                      str "collectionTitle" collectionTitle];;
  map ← PMap_findById mapId;
  match map with
  | None =>
      throw (LogicError ("map with id " +:+ mapId +:+ " doesn't exists"))
  | Some map =>
      if negb (ObjectId_equals (map_author map) userId)
      then throw (LogicError ("map " +:+ mapId +:+ " is not from user "
                              +:+ userId))
      else
        let colIndex :=
          findIndex (λ col, bool_decide (col_title col = collectionTitle))
                    (map_collections map) in
        if colIndex =? -1
        then throw (LogicError ("map " +:+ mapId
                                +:+ " doesn't have a collection with title "
                                +:+ collectionTitle))
        else
          match js_index (map_collections map) colIndex with
          | None =>
              throw (JsTypeError "Cannot read property 'pins' of undefined")
          | Some col =>
              let idsToDelete := col_pins col in
              map ← PMap_save mapId
                      (setCollections
                         (delete (Z.to_nat colIndex) (map_collections map))
                         map);
              Pin_deleteMany (ByIdIn idsToDelete);;
              mret map
          end
  end.

Definition removePin (userId pinId : Id) : M unit :=
  validate_arguments [str "userId" userId; str "pinId" pinId];;
  deletedPin ← try_catch (Pin_findOneAndDelete pinId userId)
                 (λ _, throw (LogicError ("Unable remove pin " +:+ pinId
                                          +:+ " from user " +:+ userId)));
  match deletedPin with
  | None =>
      throw (LogicError ("No pin with id " +:+ pinId
                         +:+ " was found for user " +:+ userId))
  | Some _ => mret tt
  end.

(** ** Requests, and the world after serving one *)

Inductive Op :=
| OpRegisterUser (name surname email password : string)
| OpAuthenticateUser (email password : string)
| OpRetrieveUser (userId : Id)
| OpUpdateUser (userId : Id) (data : UserData)
| OpRemoveUser (userId : Id)
| OpRetrieveUserMaps (userId : Id)
| OpRetrieveUserMap (userId mapId : Id)
| OpCreateMap (userId : Id) (title description coverImage : string)
| OpUpdateMap (userId mapId : Id) (data : MapData)
| OpCreateCollection (userId mapId : Id) (collectionTitle : string)
| OpUpdateCollection (userId mapId : Id) (collectionTitle newTitle : string)
| OpCreatePin (userId mapId : Id) (collectionTitle : string) (newPin : NewPin)
| OpUpdatePin (userId pinId : Id) (data : PinData)
| OpRemoveMap (userId mapId : Id)
| OpRemoveCollection (userId mapId : Id) (collectionTitle : string)
| OpRemovePin (userId pinId : Id).

Definition exec (o : Op) (w : World) : World :=
  match o with
  | OpRegisterUser n s e p => (registerUser n s e p w).2
  | OpAuthenticateUser e p => (authenticateUser e p w).2
  | OpRetrieveUser u => (retrieveUser u w).2
  | OpUpdateUser u d => (updateUser u d w).2
  | OpRemoveUser u => (removeUser u w).2
  | OpRetrieveUserMaps u => (retrieveUserMaps u w).2
  | OpRetrieveUserMap u m => (retrieveUserMap u m w).2
  | OpCreateMap u t d c => (createMap u t d c w).2
  | OpUpdateMap u m d => (updateMap u m d w).2
  | OpCreateCollection u m t => (createCollection u m t w).2
  | OpUpdateCollection u m t t' => (updateCollection u m t t' w).2
  | OpCreatePin u m t p => (createPin u m t p w).2
  | OpUpdatePin u p d => (updatePin u p d w).2
  | OpRemoveMap u m => (removeMap u m w).2
  | OpRemoveCollection u m t => (removeCollection u m t w).2
  | OpRemovePin u p => (removePin u p w).2
  end.

(** The worlds reachable from [w] by serving requests, one after the
    other. *)
Inductive reachable (w : World) : World → Prop :=
| reachable_refl : reachable w w
| reachable_step w' o : reachable w w' → reachable w (exec o w').

End Logic.

(** ** Properties of stores *)

Definition titlesOf (m : PMap) : list string := col_title <$> map_collections m.

(** The Collection invariant: no two Collections of one Map share a
    title. *)
Definition titlesDistinct (s : Store) : Prop :=
  map_Forall (λ _ m, NoDup (titlesOf m)) (maps s).

(** A request that cannot introduce a duplicate title: it is not a
    createCollection by the owner with a title the Map already has, and
    not an updateCollection by the owner towards the title held at
    index 0. *)
Definition titleSafe (o : Op) (s : Store) : Prop :=
  match o with
  | OpCreateCollection u i t =>
      ∀ m, maps s !! i = Some m → map_author m = u → t ∉ titlesOf m
  | OpUpdateCollection u i _ t' =>
      ∀ m, maps s !! i = Some m → map_author m = u → titlesOf m !! 0%nat ≠ Some t'
  | _ => True
  end.

Inductive reachableSafely `{Platform} (w : World) : World → Prop :=
| reachableSafely_refl : reachableSafely w w
| reachableSafely_step w' o :
    reachableSafely w w' → titleSafe o (db w') →
    reachableSafely w (exec o w').

Definition noMapBy (u : Id) (s : Store) : Prop :=
  ∀ i m, maps s !! i = Some m → map_author m ≠ u.

Definition noPinBy (u : Id) (s : Store) : Prop :=
  ∀ i p, pins s !! i = Some p → pin_author p ≠ u.

Definition noUserWithEmail (e : string) (s : Store) : Prop :=
  ∀ i u, users s !! i = Some u → user_email u ≠ e.



(** The document [updateMap] saves for a payload [data] and a stored
    Map [m]. *)
Definition updatedMap (data : MapData) (m : PMap) : PMap :=
  assignIfTruthy (md_coverImage data) setCoverImage
    (assignIfTruthy (md_description data) setDescription
       (assignIfTruthy (md_title data) setTitle m)).

(** The four arguments of registerUser pass validation. *)
Definition validRegistration `{Platform} (name surname email password : string)
    : Prop :=
  name ≠ "" ∧ surname ≠ "" ∧ email ≠ "" ∧ password ≠ ""
  ∧ email_wellFormed email = true.

(** ** A small platform and small worlds, for running the model *)

Definition demoObjectId (used : gset Id) : Id :=
  String.concat ""
    (replicate (S (foldr (λ s n, Nat.max n (String.length s)) 0%nat
                         (elements used))) "0").

(** The ObjectIds of the demo platform: the non-empty strings of letters
    and digits. *)
Definition isLetterOrDigit (c : Ascii.ascii) : bool :=
  let n := Ascii.nat_of_ascii c in
  ((48 <=? n) && (n <=? 57) || (65 <=? n) && (n <=? 90)
   || (97 <=? n) && (n <=? 122))%nat.

Fixpoint lettersAndDigits (s : string) : bool :=
  match s with
  | EmptyString => true
  | String c s' => isLetterOrDigit c && lettersAndDigits s'
  end.

Definition demoIsObjectId (i : Id) : bool :=
  negb (bool_decide (i = "")) && lettersAndDigits i.

Definition demoObjectId_isValid used : demoIsObjectId (demoObjectId used) = true.
Proof.
  unfold demoObjectId.
  generalize (foldr (λ s n, Nat.max n (String.length s)) 0%nat (elements used)).
  intros n. induction n as [|n IH]; [reflexivity|].
  change (replicate (S (S n)) "0") with ("0" :: replicate (S n) "0").
  change (String.concat "" ("0" :: replicate (S n) "0"))
    with ("0" +:+ "" +:+ String.concat "" (replicate (S n) "0")).
  unfold demoIsObjectId in *. apply andb_true_iff in IH as [_ IH].
  simpl. exact IH.
Qed.

Definition demoPlatform : Platform := {|
  email_wellFormed e :=
    match String.index 0 "@" e with Some _ => true | None => false end;
  bcrypt_hash p rounds salt := "$2b$" +:+ p;
  bcrypt_compare p digest := bool_decide (digest = "$2b$" +:+ p);
  ObjectId_new := demoObjectId;
  ObjectId_isValid := demoIsObjectId;
  ObjectId_new_isValid := demoObjectId_isValid;
  schema_avatar_default := None;
  schema_language_default := Some "en";
  schema_isPublic_default := false
|}.

Definition emptyWorld : World := mkWorld (mkStore ∅ ∅ ∅) [] 0.

Definition ana : User :=
  mkUser "Ana" "Ruiz" "ana@mail.com" "$2b$123" None (Some "es") None.

Definition demoPin (author mapId : Id) : Pin :=
  mkPin mapId author (Some "Cliff") None None None None None None
        (mkCoordinates (41 # 1) (2 # 1)).

(** One user "u1" owning a private map "m1" (collections "Trips" at
    index 0, holding pin "p1", and "Food" at index 1) and a public map
    "m2". *)
Definition demoWorld : World :=
  mkWorld
    (mkStore
       {[ "u1" := ana ]}
       (<[ "m1" := mkPMap "Coast" "desc" "img" false "u1"
                     [mkCollection "Trips" ["p1"]; mkCollection "Food" []] ]>
          {[ "m2" := mkPMap "City" "" "" true "u1" [] ]})
       {[ "p1" := demoPin "u1" "m1" ]})
    [] 0.

Definition demoMap1 : PMap :=
  mkPMap "Coast" "desc" "img" false "u1"
         [mkCollection "Trips" ["p1"]; mkCollection "Food" []].

(** A payload with a new title, an empty description and no cover. *)
Definition demoMapData : MapData := mkMapData (Some "Shore") (Some "") None.

Definition demoUserData : UserData :=
  mkUserData (Some "Anna") None None None None None None.


(** ** What a request answers, and who makes it *)

Definition errorOf {A} (r : Result A) : option Error :=
  match r with
  | Ok _ => None
  | Err e => Some e
  end.

Section Outcome.
Context `{Platform}.

(** The error a request ends with, if it fails. *)
Definition failure (o : Op) (w : World) : option Error :=
  match o with
  | OpRegisterUser n s e p => errorOf (registerUser n s e p w).1
  | OpAuthenticateUser e p => errorOf (authenticateUser e p w).1
  | OpRetrieveUser u => errorOf (retrieveUser u w).1
  | OpUpdateUser u d => errorOf (updateUser u d w).1
  | OpRemoveUser u => errorOf (removeUser u w).1
  | OpRetrieveUserMaps u => errorOf (retrieveUserMaps u w).1
  | OpRetrieveUserMap u m => errorOf (retrieveUserMap u m w).1
  | OpCreateMap u t d c => errorOf (createMap u t d c w).1
  | OpUpdateMap u m d => errorOf (updateMap u m d w).1
  | OpCreateCollection u m t => errorOf (createCollection u m t w).1
  | OpUpdateCollection u m t t' => errorOf (updateCollection u m t t' w).1
  | OpCreatePin u m t p => errorOf (createPin u m t p w).1
  | OpUpdatePin u p d => errorOf (updatePin u p d w).1
  | OpRemoveMap u m => errorOf (removeMap u m w).1
  | OpRemoveCollection u m t => errorOf (removeCollection u m t w).1
  | OpRemovePin u p => errorOf (removePin u p w).1
  end.

End Outcome.

(** The user a request is made for: its [userId] argument.  Registration
    and authentication carry none. *)
Definition caller (o : Op) : option Id :=
  match o with
  | OpRegisterUser _ _ _ _ | OpAuthenticateUser _ _ => None
  | OpRetrieveUser u | OpUpdateUser u _ | OpRemoveUser u
  | OpRetrieveUserMaps u | OpRetrieveUserMap u _ | OpCreateMap u _ _ _
  | OpUpdateMap u _ _ | OpCreateCollection u _ _
  | OpUpdateCollection u _ _ _ | OpCreatePin u _ _ _ | OpUpdatePin u _ _
  | OpRemoveMap u _ | OpRemoveCollection u _ _ | OpRemovePin u _ => Some u
  end.

(** The requests that only read. *)
Definition readsOnly (o : Op) : bool :=
  match o with
  | OpAuthenticateUser _ _ | OpRetrieveUser _ | OpRetrieveUserMaps _
  | OpRetrieveUserMap _ _ => true
  | _ => false
  end.

(** The id a request hands to a query that no try/catch of its
    operation guards. *)
Definition unguardedId (o : Op) : option Id :=
  match o with
  | OpRetrieveUser u | OpRemoveUser u | OpRetrieveUserMaps u => Some u
  | OpRetrieveUserMap _ m | OpUpdateMap _ m _ | OpCreateCollection _ m _
  | OpUpdateCollection _ m _ _ | OpRemoveMap _ m
  | OpRemoveCollection _ m _ => Some m
  | OpUpdatePin _ p _ => Some p
  | OpRegisterUser _ _ _ _ | OpAuthenticateUser _ _ | OpUpdateUser _ _
  | OpCreateMap _ _ _ _ | OpCreatePin _ _ _ _ | OpRemovePin _ _ => None
  end.

(** An operation that runs all its checks before its first write: a
    validation error leaves the world as it was, store calls included; a
    LogicError leaves the store as it was; a JS TypeError never escapes;
    a CastError escapes only for the id [cast] of an unguarded query,
    when that id is no ObjectId, and leaves the world as it was. *)
Definition checksFirst `{Platform} {A} (cast : option Id) (m : M A) : Prop :=
  ∀ w, match m w with
       | (Ok _, _) => True
       | (Err (ValidationError _), w') => w' = w
       | (Err (LogicError _), w') => db w' = db w
       | (Err (JsTypeError _), _) => False
       | (Err (CastError v), w') =>
           w' = w ∧ cast = Some v ∧ ObjectId_isValid v = false
       end.

(** The pin [createPin] stores for a caller, a Map and a payload with
    coordinates. *)
Definition pinOf (userId mapId : Id) (d : PinData) (c : Coordinates) : Pin :=
  mkPin mapId userId (pd_title d) (pd_description d) (pd_urlImage d)
        (pd_bestTimeOfYear d) (pd_bestTimeOfDay d) (pd_photographyTips d)
        (pd_travelInformation d) (mkCoordinates (latitude c) (longitude c)).

(** The first index at which a Collection of the sequence has a given
    title. *)
Definition firstTitled (cs : list Collection) (t : string) (k : nat) : Prop :=
  (∃ col, cs !! k = Some col ∧ col_title col = t)
  ∧ ∀ (j : nat) c, (j < k)%nat → cs !! j = Some c → col_title c ≠ t.

(** Every stored Pin belongs to a stored Map of the same author. *)
Definition pinsBelong (s : Store) : Prop :=
  ∀ j p, pins s !! j = Some p →
         ∃ m, maps s !! pin_mapId p = Some m ∧ map_author m = pin_author p.

(** Payloads and documents for running the model. *)
Definition demoPinData : PinData :=
  mkPinData (Some "Lighthouse") (Some "at dusk") None None None None None.

Definition demoNewPin : NewPin :=
  mkNewPin demoPinData (Some (mkCoordinates (43 # 1) (-8 # 1))).

(** * Verification *)

(** ** Running the monad *)

Ltac unfold_M :=
  unfold castObjectId, castObjectIds, filterIds, isStored in *;
  unfold mbind, mret, M_bind, M_ret, bind, ret, throw, try_catch,
         issue, getStore, putStore, drawEntropy in *.

(** Closes the branch of a query whose id is not stored: the id casts
    and nothing is found, or it does not and the query throws. *)
Ltac cast_done :=
  try done;
  repeat (match goal with
          | |- context [ObjectId_isValid ?i] =>
              destruct (ObjectId_isValid i) eqn:?
          end; simpl; try done).

Lemma arg_bad_str name v : v ≠ "" → arg_bad (str name v) = false.
Proof.
  intros Hv. unfold arg_bad, str; simpl.
  by rewrite bool_decide_eq_false_2.
Qed.

Lemma arg_bad_strOpt name v : arg_bad (strOpt name v) = false.
Proof. reflexivity. Qed.

Lemma arg_bad_obj name : arg_bad (obj name) = false.
Proof. reflexivity. Qed.

(** Validation never touches the world. *)
Lemma validate_arguments_world l w : (validate_arguments l w).2 = w.
Proof.
  induction l as [|a l IH]; simpl; [done|].
  destruct (arg_bad a); [done|apply IH].
Qed.

Lemma validate_arguments_pass l w :
  Forall (λ a, arg_bad a = false) l → validate_arguments l w = (Ok tt, w).
Proof.
  induction 1 as [|a l Ha _ IH]; simpl; [done|].
  by rewrite Ha.
Qed.

(** A validation either passes or stops with a ValidationError. *)
Lemma validate_arguments_cases l w :
  validate_arguments l w = (Ok tt, w)
  ∨ ∃ n, validate_arguments l w = (Err (ValidationError n), w).
Proof.
  induction l as [|a l IH]; simpl; [by left|].
  destruct (arg_bad a); [right; by eexists|apply IH].
Qed.

Ltac pass_validation :=
  cbv beta;
  rewrite validate_arguments_pass
    by (repeat constructor;
        first [ apply arg_bad_str; assumption
              | apply arg_bad_strOpt | apply arg_bad_obj ]).

(** ** findIndex *)

Lemma findIndex_lower {A} (p : A → bool) l : -1 ≤ findIndex p l.
Proof.
  induction l as [|x l IH]; simpl; [lia|].
  destruct (p x); [lia|]. destruct (Z.ltb_spec (findIndex p l) 0); lia.
Qed.

(** The index found is that of the first element satisfying [p]. *)
Lemma findIndex_first {A} (p : A → bool) l (i : nat) x :
  l !! i = Some x → p x = true →
  (∀ (j : nat) y, (j < i)%nat → l !! j = Some y → p y = false) →
  findIndex p l = Z.of_nat i.
Proof.
  revert i. induction l as [|a l IH]; intros i Hi Hp Hfirst; [done|].
  destruct i as [|i]; simpl in *.
  - injection Hi as ->. by rewrite Hp.
  - rewrite (Hfirst 0%nat a) by (done || lia).
    rewrite (IH i Hi Hp).
    + destruct (Z.ltb_spec (Z.of_nat i) 0); lia.
    + intros j y Hj Hy. apply (Hfirst (S j) y); [lia|done].
Qed.

Lemma findIndex_none {A} (p : A → bool) l :
  (∀ x, x ∈ l → p x = false) → findIndex p l = -1.
Proof.
  induction l as [|a l IH]; intros Hall; simpl; [done|].
  rewrite (Hall a) by left. rewrite IH.
  - done.
  - intros x Hx. apply Hall. by right.
Qed.

Lemma findIndex_found {A} (p : A → bool) l :
  0 ≤ findIndex p l →
  ∃ x, l !! Z.to_nat (findIndex p l) = Some x ∧ p x = true.
Proof.
  induction l as [|a l IH]; simpl; [lia|].
  destruct (p a) eqn:Hp; [intros _; by exists a|].
  destruct (Z.ltb_spec (findIndex p l) 0) as [Hneg|Hpos]; [lia|].
  intros _. destruct (IH Hpos) as (x & Hx & Hpx). exists x. split; [|done].
  replace (Z.to_nat (findIndex p l + 1)) with (S (Z.to_nat (findIndex p l)))
    by lia.
  done.
Qed.

(** [findIndex] is positive exactly when some element satisfies [p] and
    the one at index 0 does not. *)
Lemma findIndex_positive {A} (p : A → bool) l :
  0 < findIndex p l ↔
  (∃ x, x ∈ l ∧ p x = true) ∧ (∀ x, l !! 0%nat = Some x → p x = false).
Proof.
  destruct l as [|a l]; simpl.
  - split; [lia|]. intros [(x & Hx & _) _]. by apply elem_of_nil in Hx.
  - destruct (p a) eqn:Hp.
    + split; [lia|]. intros [_ Hhead]. specialize (Hhead a eq_refl). congruence.
    + destruct (Z.ltb_spec (findIndex p l) 0) as [Hneg|Hpos].
      * split; [lia|]. intros [(x & Hx & Hpx) _].
        apply elem_of_cons in Hx as [->|Hx]; [congruence|].
        assert (findIndex p l = -1) as Hnone
          by (pose proof (findIndex_lower p l); lia).
        exfalso. clear Hneg. induction l as [|b l IH]; simpl in *.
        { by apply elem_of_nil in Hx. }
        destruct (p b) eqn:Hb; [lia|].
        destruct (Z.ltb_spec (findIndex p l) 0); [|lia].
        apply elem_of_cons in Hx as [->|Hx]; [congruence|].
        apply IH; [done|]. pose proof (findIndex_lower p l); lia.
      * split; [|lia]. intros _. split.
        -- destruct (findIndex_found p l Hpos) as (x & Hx & Hpx).
           exists x. split; [|done]. right. by eapply list_elem_of_lookup_2.
        -- intros x [= <-]. done.
Qed.

(** ** retrieveUserMap *)

Section RetrieveUserMap.
Context `{Platform}.
Variables (userId mapId : Id) (w : World).
Hypothesis userId_ok : userId ≠ "".
Hypothesis mapId_ok : mapId ≠ "".

(** With no Map under mapId, the outcome turns on whether mapId casts
    to an ObjectId: the query answers null, or it throws. *)
Lemma retrieveUserMap_absent :
  maps (db w) !! mapId = None →
  (retrieveUserMap userId mapId w).1 =
    if ObjectId_isValid mapId
    then Err (LogicError ("no maps for user with id " +:+ mapId))
    else Err (CastError mapId).
Proof.
  intros Hnone. unfold retrieveUserMap, PMap_findById. unfold_M.
  pass_validation. simpl. rewrite Hnone. simpl.
  by destruct (ObjectId_isValid mapId).
Qed.

Lemma retrieveUserMap_missing :
  maps (db w) !! mapId = None → ObjectId_isValid mapId = true →
  isLogicError (retrieveUserMap userId mapId w).1.
Proof. intros Hnone Hvalid. by rewrite retrieveUserMap_absent, Hvalid. Qed.

Lemma retrieveUserMap_found m :
  maps (db w) !! mapId = Some m →
  (retrieveUserMap userId mapId w).1 =
    if negb (map_isPublic m) && negb (bool_decide (map_author m = userId))
    then Err (LogicError ("map " +:+ mapId +:+ " is not from user "
                          +:+ userId))
    else Ok (mkMapView mapId (map_title m) (map_description m)
                       (map_coverImage m) (map_isPublic m) (map_author m)
                       (resolvePins (pins (db w)) <$> map_collections m)).
Proof.
  intros Hm.
  unfold retrieveUserMap, PMap_findById, populate_collections_pins,
    ObjectId_equals.
  unfold_M. pass_validation. simpl. rewrite Hm. simpl.
  by destruct (negb (map_isPublic m) && _).
Qed.

(** C1, as the code has it.  retrieveUserMap(userId, mapId), on
    non-empty ids: when no Map has id mapId, it fails with LogicError if
    mapId casts to an ObjectId, and with the CastError of the query
    (which nothing catches) if it does not; it fails with LogicError
    when the Map is private and its author is not userId; it succeeds,
    with the populated Map, when the Map is public (whoever asks) and
    when it is private and userId is its author. *)
Theorem retrieveUserMap_visibility :
  (maps (db w) !! mapId = None → ObjectId_isValid mapId = true →
     isLogicError (retrieveUserMap userId mapId w).1)
  ∧ (maps (db w) !! mapId = None → ObjectId_isValid mapId = false →
     (retrieveUserMap userId mapId w).1 = Err (CastError mapId))
  ∧ (∀ m, maps (db w) !! mapId = Some m →
       map_isPublic m = false → map_author m ≠ userId →
       isLogicError (retrieveUserMap userId mapId w).1)
  ∧ (∀ m, maps (db w) !! mapId = Some m →
       map_isPublic m = true ∨ map_author m = userId →
       (retrieveUserMap userId mapId w).1 =
         Ok (mkMapView mapId (map_title m) (map_description m)
               (map_coverImage m) (map_isPublic m) (map_author m)
               (resolvePins (pins (db w)) <$> map_collections m))).
Proof.
  split; [apply retrieveUserMap_missing|]. split.
  { intros Hnone Hinvalid. by rewrite retrieveUserMap_absent, Hinvalid. }
  split.
  - intros m Hm Hprivate Hother.
    rewrite (retrieveUserMap_found m Hm), Hprivate.
    by rewrite bool_decide_eq_false_2.
  - intros m Hm Hvisible. rewrite (retrieveUserMap_found m Hm).
    destruct Hvisible as [-> | Hauthor]; [done|].
    rewrite bool_decide_eq_true_2 by done.
    by rewrite andb_false_r.
Qed.
End RetrieveUserMap.

(** ** updateMap *)

Section UpdateMap.
Context `{Platform}.
Variables (userId mapId : Id) (data : MapData) (w : World) (m : PMap).
Hypothesis userId_ok : userId ≠ "".
Hypothesis mapId_ok : mapId ≠ "".
Hypothesis stored : maps (db w) !! mapId = Some m.

Lemma updateMap_run :
  updateMap userId mapId data w =
    if bool_decide (map_author m = userId)
    then (Ok (updatedMap data m),
          mkWorld (setMaps (<[mapId := updatedMap data m]> (maps (db w)))
                           (db w))
                  (log w ++ [mkCall MPMap VfindById (ById mapId)]
                         ++ [mkCall MPMap Vsave (ById mapId)])
                  (entropy w))
    else (Err (LogicError ("map " +:+ mapId +:+ " is not from user "
                           +:+ userId)),
          mkWorld (db w) (log w ++ [mkCall MPMap VfindById (ById mapId)])
                  (entropy w)).
Proof.
  unfold updateMap, PMap_findById, PMap_save, ObjectId_equals. unfold_M.
  pass_validation. simpl. rewrite stored. simpl.
  destruct (bool_decide (map_author m = userId)); simpl; [|done].
  by rewrite <- app_assoc.
Qed.

Lemma assignIfTruthy_spec field setter getter old :
  (∀ v x, getter (setter v x) = v) →
  (∀ v, field = Some v → v ≠ "" →
     getter (assignIfTruthy field setter old) = v)
  ∧ (field = None ∨ field = Some "" →
     getter (assignIfTruthy field setter old) = getter old).
Proof.
  intros Hget. unfold assignIfTruthy, js_truthy. split.
  - intros v -> Hv. rewrite bool_decide_eq_false_2 by done. apply Hget.
  - by intros [-> | ->].
Qed.

(** C5. When the Map with id mapId is owned by someone other than the
    caller, updateMap fails with LogicError and the store, hence the
    stored Map, is what it was. *)
Theorem updateMap_not_owner :
  map_author m ≠ userId →
  isLogicError (updateMap userId mapId data w).1
  ∧ db (updateMap userId mapId data w).2 = db w
  ∧ maps (db (updateMap userId mapId data w).2) !! mapId = Some m.
Proof.
  intros Hother. rewrite updateMap_run.
  rewrite bool_decide_eq_false_2 by done. simpl. done.
Qed.

(** C8. When the caller owns the Map, updateMap succeeds and stores a
    Map in which each of title, description and coverImage is the
    payload's value when the payload holds a non-empty string for it, and
    the stored value otherwise (the key is absent, or holds the empty
    string); isPublic, author and collections are the stored ones, and
    no other Map, no User and no Pin changes. *)
Theorem updateMap_frame :
  map_author m = userId →
  ∃ m',
    (updateMap userId mapId data w).1 = Ok m'
    ∧ maps (db (updateMap userId mapId data w).2)
        = <[mapId := m']> (maps (db w))
    ∧ users (db (updateMap userId mapId data w).2) = users (db w)
    ∧ pins (db (updateMap userId mapId data w).2) = pins (db w)
    ∧ (∀ v, md_title data = Some v → v ≠ "" → map_title m' = v)
    ∧ (md_title data = None ∨ md_title data = Some "" →
         map_title m' = map_title m)
    ∧ (∀ v, md_description data = Some v → v ≠ "" → map_description m' = v)
    ∧ (md_description data = None ∨ md_description data = Some "" →
         map_description m' = map_description m)
    ∧ (∀ v, md_coverImage data = Some v → v ≠ "" → map_coverImage m' = v)
    ∧ (md_coverImage data = None ∨ md_coverImage data = Some "" →
         map_coverImage m' = map_coverImage m)
    ∧ map_isPublic m' = map_isPublic m
    ∧ map_author m' = map_author m
    ∧ map_collections m' = map_collections m.
Proof.
  intros Howner. exists (updatedMap data m). rewrite updateMap_run.
  rewrite bool_decide_eq_true_2 by done. simpl.
  assert (∀ f s (x : PMap) (g : PMap → string),
            (∀ v y, g (s v y) = g y) →
            g (assignIfTruthy f s x) = g x) as Hkeep.
  { intros f s x g Hg. unfold assignIfTruthy.
    destruct f as [v|]; [|done]. by destruct (js_truthy v). }
  assert (∀ A f s (x : PMap) (g : PMap → A),
            (∀ v y, g (s v y) = g y) →
            g (assignIfTruthy f s x) = g x) as Hkeep'.
  { intros A f s x g Hg. unfold assignIfTruthy.
    destruct f as [v|]; [|done]. by destruct (js_truthy v). }
  unfold updatedMap.
  repeat split.
  - intros v Hv Hne. rewrite !(Hkeep _ _ _ map_title) by done.
    by apply (assignIfTruthy_spec _ setTitle map_title).
  - intros Hv. rewrite !(Hkeep _ _ _ map_title) by done.
    by apply (assignIfTruthy_spec _ setTitle map_title).
  - intros v Hv Hne. rewrite (Hkeep _ setCoverImage _ map_description) by done.
    destruct (assignIfTruthy_spec (md_description data) setDescription
                map_description (assignIfTruthy (md_title data) setTitle m))
      as [Hset _]; [done|]. by apply Hset.
  - intros Hv. rewrite (Hkeep _ setCoverImage _ map_description) by done.
    destruct (assignIfTruthy_spec (md_description data) setDescription
                map_description (assignIfTruthy (md_title data) setTitle m))
      as [_ Hold]; [done|]. rewrite Hold by done.
    by rewrite (Hkeep _ setTitle _ map_description).
  - intros v Hv Hne.
    by apply (assignIfTruthy_spec _ setCoverImage map_coverImage).
  - intros Hv.
    destruct (assignIfTruthy_spec (md_coverImage data) setCoverImage
                map_coverImage
                (assignIfTruthy (md_description data) setDescription
                   (assignIfTruthy (md_title data) setTitle m)))
      as [_ Hold]; [done|]. rewrite Hold by done.
    by rewrite !(Hkeep _ _ _ map_coverImage).
  - by rewrite !(Hkeep' _ _ _ _ map_isPublic).
  - by rewrite !(Hkeep' _ _ _ _ map_author).
  - by rewrite !(Hkeep' _ _ _ _ map_collections).
Qed.
End UpdateMap.

(** ** removePin *)

Section RemovePin.
Context `{Platform}.
Variables (userId pinId : Id).
Hypothesis userId_ok : userId ≠ "".
Hypothesis pinId_ok : pinId ≠ "".

Lemma removePin_run w :
  removePin userId pinId w =
    let w1 := mkWorld (db w)
                (log w ++ [mkCall MPin VfindOneAndDelete
                             (ByIdAndAuthor pinId userId)])
                (entropy w) in
    let notFound :=
      (Err (LogicError ("No pin with id " +:+ pinId
                        +:+ " was found for user " +:+ userId)), w1) in
    let unable :=
      (Err (LogicError ("Unable remove pin " +:+ pinId +:+ " from user "
                        +:+ userId)), w) in
    match pins (db w) !! pinId with
    | Some p =>
        if bool_decide (pin_author p = userId)
        then (Ok tt, mkWorld (setPins (delete pinId (pins (db w))) (db w))
                             (log w1) (entropy w))
        else if ObjectId_isValid userId then notFound else unable
    | None =>
        if ObjectId_isValid pinId
        then (if ObjectId_isValid userId then notFound else unable)
        else unable
    end.
Proof.
  unfold removePin, Pin_findOneAndDelete, matchesPin. unfold_M.
  pass_validation. simpl.
  destruct (pins (db w) !! pinId) as [p|]; simpl.
  - rewrite (bool_decide_eq_true_2 (pinId = pinId)) by done. simpl.
    destruct (bool_decide (pin_author p = userId)); simpl; [done|].
    by destruct (ObjectId_isValid userId).
  - destruct (ObjectId_isValid pinId); simpl; [|done].
    by destruct (ObjectId_isValid userId).
Qed.

Lemma removePin_gone w :
  pins (db (removePin userId pinId w).2) !! pinId = None
  ∨ ∃ p, pins (db (removePin userId pinId w).2) !! pinId = Some p
         ∧ pin_author p ≠ userId.
Proof.
  rewrite removePin_run. cbv zeta.
  destruct (pins (db w) !! pinId) as [p|] eqn:Hp.
  - destruct (bool_decide_reflect (pin_author p = userId)); simpl.
    + left. apply lookup_delete_eq.
    + right. exists p. by destruct (ObjectId_isValid userId).
  - left. by destruct (ObjectId_isValid pinId), (ObjectId_isValid userId).
Qed.

(** C7. On valid ids, removePin(userId, pinId): when a Pin has that id
    and that author, it succeeds with a single store call that deletes
    the Pin and touches nothing else; when no Pin has both, it fails with
    LogicError and the store is what it was.  Whatever the first call
    did, a second call right after it fails with LogicError. *)
Theorem removePin_once_only w :
  (∀ p, pins (db w) !! pinId = Some p → pin_author p = userId →
     (removePin userId pinId w).1 = Ok tt
     ∧ db (removePin userId pinId w).2
         = setPins (delete pinId (pins (db w))) (db w)
     ∧ log (removePin userId pinId w).2
         = log w ++ [mkCall MPin VfindOneAndDelete
                       (ByIdAndAuthor pinId userId)])
  ∧ ((∀ p, pins (db w) !! pinId = Some p → pin_author p ≠ userId) →
     isLogicError (removePin userId pinId w).1
     ∧ db (removePin userId pinId w).2 = db w)
  ∧ isLogicError (removePin userId pinId (removePin userId pinId w).2).1.
Proof.
  split; [|split].
  - intros p Hp Hauthor. rewrite removePin_run, Hp. simpl.
    by rewrite bool_decide_eq_true_2.
  - intros Hnone. rewrite removePin_run. cbv zeta.
    destruct (pins (db w) !! pinId) as [p|] eqn:Hp.
    + rewrite bool_decide_eq_false_2 by eauto.
      by destruct (ObjectId_isValid userId).
    + by destruct (ObjectId_isValid pinId), (ObjectId_isValid userId).
  - rewrite (removePin_run (removePin userId pinId w).2). cbv zeta.
    destruct (removePin_gone w) as [-> | (p & -> & Hother)].
    + by destruct (ObjectId_isValid pinId), (ObjectId_isValid userId).
    + rewrite bool_decide_eq_false_2 by done.
      by destruct (ObjectId_isValid userId).
Qed.
End RemovePin.

(** ** retrieveUserMaps *)

Lemma retrieveUserMaps_run `{Platform} userId w :
  userId ≠ "" → ObjectId_isValid userId = true →
  retrieveUserMaps userId w =
    (Ok (List.filter (λ kv, matchesPMap (ByAuthor userId) kv.1 kv.2)
           (map_to_list (maps (db w)))),
     mkWorld (db w) (log w ++ [mkCall MPMap Vfind (ByAuthor userId)])
             (entropy w)).
Proof.
  intros Hid Hvalid. unfold retrieveUserMaps, PMap_find. unfold_M.
  pass_validation. simpl. by rewrite Hvalid.
Qed.

(** With a userId that is no ObjectId the query throws, and nothing
    catches it. *)
Lemma retrieveUserMaps_cast `{Platform} userId w :
  userId ≠ "" → ObjectId_isValid userId = false →
  retrieveUserMaps userId w = (Err (CastError userId), w).
Proof.
  intros Hid Hinvalid. unfold retrieveUserMaps, PMap_find. unfold_M.
  pass_validation. simpl. by rewrite Hinvalid.
Qed.

(** C9, as the code has it.  On a non-empty userId that casts to an
    ObjectId, retrieveUserMaps does not fail: it returns the Maps
    authored by userId, so the empty list when there is none.  On a
    non-empty userId that is no ObjectId it fails with the CastError of
    the query, which nothing catches.  It never writes, and its
    LogicError is never raised, whatever the argument. *)
Theorem retrieveUserMaps_never_fails `{Platform} userId w :
  userId ≠ "" →
  (ObjectId_isValid userId = true →
   ∃ l, (retrieveUserMaps userId w).1 = Ok l
        ∧ (∀ i m, (i, m) ∈ l ↔
                  maps (db w) !! i = Some m ∧ map_author m = userId)
        ∧ (noMapBy userId (db w) → l = []))
  ∧ (ObjectId_isValid userId = false →
     (retrieveUserMaps userId w).1 = Err (CastError userId))
  ∧ db (retrieveUserMaps userId w).2 = db w
  ∧ ∀ anyId w', ¬ isLogicError (retrieveUserMaps anyId w').1.
Proof.
  intros Hid. split; [|split; [|split]].
  - intros Hvalid. rewrite retrieveUserMaps_run by done.
    eexists. split; [done|].
    assert (∀ i m,
              (i, m) ∈ List.filter
                         (λ kv, matchesPMap (ByAuthor userId) kv.1 kv.2)
                         (map_to_list (maps (db w)))
              ↔ maps (db w) !! i = Some m ∧ map_author m = userId) as Hmem.
    { intros i m. rewrite list_elem_of_In, filter_In, <- list_elem_of_In.
      rewrite elem_of_map_to_list. simpl.
      by rewrite bool_decide_eq_true. }
    split; [done|].
    intros Hnone.
    destruct (List.filter _ _) as [|[i m] l] eqn:Hl; [done|].
    destruct (proj1 (Hmem i m)) as [Hi Ha]; [left|].
    by destruct (Hnone i m Hi).
  - intros Hinvalid. by rewrite retrieveUserMaps_cast.
  - unfold retrieveUserMaps, PMap_find. unfold_M. pass_validation. simpl.
    by destruct (negb _).
  - intros anyId w'. unfold retrieveUserMaps, PMap_find. unfold_M.
    destruct (validate_arguments_cases [str "userId" anyId] w')
      as [-> | [n ->]]; simpl; [|tauto].
    destruct (negb _); simpl; tauto.
Qed.

(** ** updateUser *)


(** ** removeUser *)

Lemma survivors_lookup {A} (matches : Filter → Id → A → bool) f
    (m : gmap Id A) i x :
  survivors matches f m !! i = Some x ↔ m !! i = Some x ∧ matches f i x = false.
Proof. unfold survivors. by rewrite map_lookup_filter_Some. Qed.

Lemma removeUser_run `{Platform} userId w u :
  userId ≠ "" →
  users (db w) !! userId = Some u →
  removeUser userId w =
    (Ok (Some u),
     mkWorld
       (mkStore (delete userId (users (db w)))
                (survivors matchesPMap (ByAuthor userId) (maps (db w)))
                (survivors matchesPin (ByAuthor userId) (pins (db w))))
       (log w ++ [mkCall MUser VfindById (ById userId);
                  mkCall MPin VdeleteMany (ByAuthor userId);
                  mkCall MPMap VdeleteMany (ByAuthor userId);
                  mkCall MUser VfindByIdAndDelete (ById userId)])
       (entropy w)).
Proof.
  intros Hid Hu.
  unfold removeUser, User_findById, Pin_deleteMany, PMap_deleteMany,
    User_findByIdAndDelete.
  unfold_M. pass_validation. simpl. rewrite Hu. simpl.
  rewrite <- !app_assoc, Hu. reflexivity.
Qed.

(** C6. For a stored user U (a valid id), removeUser(U) succeeds and
    leaves no Map authored by U, no Pin authored by U and no User with
    id U; after looking the user up, it issues exactly three store
    calls, in this order: delete the Pins of author U, delete the Maps
    of author U, delete the User. *)
Theorem removeUser_cascade `{Platform} userId w u :
  userId ≠ "" →
  users (db w) !! userId = Some u →
  (removeUser userId w).1 = Ok (Some u)
  ∧ noMapBy userId (db (removeUser userId w).2)
  ∧ noPinBy userId (db (removeUser userId w).2)
  ∧ users (db (removeUser userId w).2) !! userId = None
  ∧ log (removeUser userId w).2
      = log w ++ [mkCall MUser VfindById (ById userId);
                  mkCall MPin VdeleteMany (ByAuthor userId);
                  mkCall MPMap VdeleteMany (ByAuthor userId);
                  mkCall MUser VfindByIdAndDelete (ById userId)].
Proof.
  intros Hid Hu. rewrite (removeUser_run userId w u Hid Hu). simpl.
  split; [done|]. split; [|split; [|split; [|done]]].
  - intros i m Hm. apply survivors_lookup in Hm as [_ Hm].
    simpl in Hm. by apply bool_decide_eq_false in Hm.
  - intros i p Hp. apply survivors_lookup in Hp as [_ Hp].
    simpl in Hp. by apply bool_decide_eq_false in Hp.
  - apply lookup_delete_eq.
Qed.

(** ** registerUser, then authenticateUser *)

#[local] Arguments matchesUser : simpl never.

Lemma findOne_none (s : Store) email :
  noUserWithEmail email s →
  List.find (λ kv, matchesUser (ByEmail email) kv.1 kv.2)
            (map_to_list (users s)) = None.
Proof.
  intros Hnone.
  destruct (List.find _ _) as [[i u]|] eqn:Hfind; [|done].
  apply find_some in Hfind as [Hin Hmatch]. unfold matchesUser in Hmatch.
  apply list_elem_of_In, elem_of_map_to_list in Hin.
  apply bool_decide_eq_true in Hmatch. by destruct (Hnone i u Hin).
Qed.

(** After inserting a user with an e-mail nobody else has, a query by
    that e-mail finds that user. *)
Lemma findOne_inserted (us : gmap Id User) i u :
  (∀ j v, us !! j = Some v → user_email v ≠ user_email u) →
  List.find (λ kv, matchesUser (ByEmail (user_email u)) kv.1 kv.2)
            (map_to_list (<[i := u]> us)) = Some (i, u).
Proof.
  intros Hnone.
  destruct (List.find _ _) as [[j v]|] eqn:Hfind.
  - apply find_some in Hfind as [Hin Hmatch]. unfold matchesUser in Hmatch.
    apply list_elem_of_In, elem_of_map_to_list in Hin.
    apply bool_decide_eq_true in Hmatch.
    destruct (decide (i = j)) as [->|Hne].
    + rewrite lookup_insert_eq in Hin. by injection Hin as ->.
    + rewrite lookup_insert_ne in Hin by done. by destruct (Hnone j v Hin).
  - exfalso.
    assert (In (i, u) (map_to_list (<[i := u]> us))) as Hin.
    { apply list_elem_of_In, elem_of_map_to_list, lookup_insert_eq. }
    pose proof (find_none _ _ Hfind _ Hin) as Hno. unfold matchesUser in Hno.
    by rewrite bool_decide_eq_true_2 in Hno.
Qed.

Lemma registerUser_run `{Platform} name surname email password w :
  validRegistration name surname email password →
  noUserWithEmail email (db w) →
  registerUser name surname email password w =
    let id := ObjectId_new (dom (users (db w))) in
    (Ok id,
     mkWorld
       (setUsers
          (<[id := mkUser name surname email
                     (bcrypt_hash password 10 (entropy w))
                     schema_avatar_default schema_language_default None]>
             (users (db w)))
          (db w))
       (log w ++ [mkCall MUser VfindOne (ByEmail email);
                  mkCall MUser Vcreate (ById id)])
       (S (entropy w))).
Proof.
  intros (Hname & Hsurname & Hemail & Hpassword & Hwf) Hfree.
  unfold registerUser, validate_email, User_findOne, bcrypt_hashM, User_create.
  unfold_M. pass_validation. rewrite Hwf. simpl.
  rewrite findOne_none by done. simpl.
  by rewrite <- app_assoc.
Qed.

(** C2. With a bcrypt whose compare accepts the digests its hash
    produces: on valid arguments and an e-mail no stored User has,
    registerUser succeeds, and authenticateUser with the same e-mail and
    password, run on the world registerUser left, returns the id
    registerUser returned. *)
Theorem registerUser_then_authenticateUser `{Platform}
    name surname email password w :
  (∀ p rounds salt, bcrypt_compare p (bcrypt_hash p rounds salt) = true) →
  validRegistration name surname email password →
  noUserWithEmail email (db w) →
  ∃ id w',
    registerUser name surname email password w = (Ok id, w')
    ∧ (authenticateUser email password w').1 = Ok id.
Proof.
  intros Hbcrypt Hvalid Hfree.
  rewrite registerUser_run by done.
  destruct Hvalid as (Hname & Hsurname & Hemail & Hpassword & Hwf).
  eexists _, _. split; [reflexivity|].
  unfold authenticateUser, validate_email, User_findOne.
  unfold_M. pass_validation. rewrite Hwf. simpl.
  set (u := mkUser name surname email _ _ _ _).
  change email with (user_email u) at 1.
  rewrite findOne_inserted by (intros j v Hj; apply (Hfree j v Hj)).
  simpl. by rewrite Hbcrypt.
Qed.

(** ** updateCollection *)

Lemma titlesOf_elem (m : PMap) t :
  t ∈ titlesOf m ↔ ∃ col, col ∈ map_collections m ∧ col_title col = t.
Proof.
  unfold titlesOf. rewrite list_elem_of_fmap.
  split; intros (col & Ha & Hb); exists col; by split.
Qed.

Lemma titlesOf_lookup (m : PMap) (i : nat) t :
  titlesOf m !! i = Some t ↔
  ∃ col, map_collections m !! i = Some col ∧ col_title col = t.
Proof.
  unfold titlesOf. rewrite list_lookup_fmap.
  destruct (map_collections m !! i) as [col|]; simpl.
  - split; [intros [= <-]; by exists col|by intros (c & [= <-] & <-)].
  - split; [done|by intros (c & ? & _)].
Qed.

(** The collision check of updateCollection fires exactly when the new
    title is in the sequence and is not the title at index 0. *)
Lemma collision_detected (m : PMap) t :
  (findIndex (λ col, bool_decide (col_title col = t)) (map_collections m) >? 0)
    = true
  ↔ t ∈ titlesOf m ∧ titlesOf m !! 0%nat ≠ Some t.
Proof.
  rewrite Z.gtb_gt, Z.gt_lt_iff, findIndex_positive, titlesOf_elem.
  split.
  - intros [(col & Hcol & Ht) Hhead]. apply bool_decide_eq_true in Ht.
    split; [by exists col|].
    intros (c & Hc & Hct)%titlesOf_lookup.
    specialize (Hhead c Hc). by apply bool_decide_eq_false in Hhead.
  - intros [(col & Hcol & Ht) Hhead]. split.
    + exists col. by rewrite bool_decide_eq_true.
    + intros c Hc. apply bool_decide_eq_false. intros Hct.
      apply Hhead, titlesOf_lookup. by exists c.
Qed.

Section UpdateCollection.
Context `{Platform}.
Variables (userId mapId : Id) (oldTitle newTitle : string).
Variables (w : World) (pmap : PMap).
Hypothesis userId_ok : userId ≠ "".
Hypothesis mapId_ok : mapId ≠ "".
Hypothesis oldTitle_ok : oldTitle ≠ "".
Hypothesis newTitle_ok : newTitle ≠ "".
Hypothesis stored : maps (db w) !! mapId = Some pmap.
Hypothesis owned : map_author pmap = userId.

Lemma updateCollection_run :
  updateCollection userId mapId oldTitle newTitle w =
    let w1 := mkWorld (db w) (log w ++ [mkCall MPMap VfindById (ById mapId)])
                      (entropy w) in
    let colIndex :=
      findIndex (λ col, bool_decide (col_title col = oldTitle))
                (map_collections pmap) in
    let colIndexNewTitle :=
      findIndex (λ col, bool_decide (col_title col = newTitle))
                (map_collections pmap) in
    if colIndexNewTitle >? 0
    then (Err (LogicError ("error updating, collection " +:+ newTitle
                           +:+ " already exist on map " +:+ mapId)), w1)
    else
      match js_index (map_collections pmap) colIndex with
      | None => (Err (LogicError ("error updating collection " +:+ oldTitle
                                  +:+ " on map " +:+ mapId)), w1)
      | Some col =>
          (Ok tt,
           mkWorld
             (setMaps
                (<[mapId :=
                     setCollections
                       (<[Z.to_nat colIndex :=
                            mkCollection newTitle (col_pins col)]>
                          (map_collections pmap)) pmap]> (maps (db w)))
                (db w))
             (log w1 ++ [mkCall MPMap Vsave (ById mapId)])
             (entropy w))
      end.
Proof.
  unfold updateCollection, PMap_findById, PMap_save, ObjectId_equals.
  unfold_M. pass_validation. simpl. rewrite stored. simpl.
  rewrite bool_decide_eq_true_2 by done. simpl.
  destruct (_ >? 0); [done|].
  by destruct (js_index _ _).
Qed.

(** X27. Renaming a Collection the Map does not hold fails: the
    assignment goes through [undefined], and the catch turns that into
    a LogicError; nothing is written. *)
Lemma updateCollection_missing :
  oldTitle ∉ titlesOf pmap →
  isLogicError (updateCollection userId mapId oldTitle newTitle w).1
  ∧ db (updateCollection userId mapId oldTitle newTitle w).2 = db w.
Proof.
  intros Hmissing. rewrite updateCollection_run. cbv zeta.
  destruct (_ >? 0); [done|].
  rewrite (findIndex_none (λ col, bool_decide (col_title col = oldTitle))).
  - done.
  - intros col Hcol. apply bool_decide_eq_false. intros Htitle.
    apply Hmissing, titlesOf_elem. by exists col.
Qed.

(** C4. For a Map the caller owns, on valid arguments:
    - when newTitle is the title at an index greater than zero and is
      not the title at index 0, updateCollection fails with LogicError
      and the store is what it was;
    - when newTitle is the title at index 0, or is no title of the
      sequence, no collision is detected and the call succeeds: the Map
      stored under mapId afterwards has, at the index i of the first
      Collection titled oldTitle, a Collection titled newTitle with the
      pins that Collection had; every other index holds the Collection
      it held, so the sequence keeps its length and its order; title,
      description, cover, visibility and author of the Map are what
      they were, and so are every other Map, the users and the Pins. *)
Theorem updateCollection_collision :
  (∀ k : nat, (0 < k)%nat → titlesOf pmap !! k = Some newTitle →
     titlesOf pmap !! 0%nat ≠ Some newTitle →
     isLogicError (updateCollection userId mapId oldTitle newTitle w).1
     ∧ db (updateCollection userId mapId oldTitle newTitle w).2 = db w)
  ∧ (titlesOf pmap !! 0%nat = Some newTitle ∨ newTitle ∉ titlesOf pmap →
     ∀ (i : nat) col,
       map_collections pmap !! i = Some col →
       col_title col = oldTitle →
       (∀ (j : nat) c, (j < i)%nat → map_collections pmap !! j = Some c →
                       col_title c ≠ oldTitle) →
       (updateCollection userId mapId oldTitle newTitle w).1 = Ok tt
       ∧ db (updateCollection userId mapId oldTitle newTitle w).2
           = setMaps
               (<[mapId :=
                    setCollections
                      (<[i := mkCollection newTitle (col_pins col)]>
                         (map_collections pmap)) pmap]> (maps (db w)))
               (db w)
       ∧ (∃ pmap' col',
            maps (db (updateCollection userId mapId oldTitle newTitle w).2)
              !! mapId = Some pmap'
            ∧ map_collections pmap' !! i = Some col'
            ∧ col_title col' = newTitle
            ∧ col_pins col' = col_pins col
            ∧ (∀ j : nat, j ≠ i →
                 map_collections pmap' !! j = map_collections pmap !! j)
            ∧ length (map_collections pmap') = length (map_collections pmap)
            ∧ map_title pmap' = map_title pmap
            ∧ map_description pmap' = map_description pmap
            ∧ map_coverImage pmap' = map_coverImage pmap
            ∧ map_isPublic pmap' = map_isPublic pmap
            ∧ map_author pmap' = map_author pmap)
       ∧ (∀ j, j ≠ mapId →
            maps (db (updateCollection userId mapId oldTitle newTitle w).2)
              !! j = maps (db w) !! j)
       ∧ users (db (updateCollection userId mapId oldTitle newTitle w).2)
         = users (db w)
       ∧ pins (db (updateCollection userId mapId oldTitle newTitle w).2)
         = pins (db w)).
Proof.
  rewrite updateCollection_run. cbv zeta. split.
  - intros k _ Hk Hhead.
    rewrite (proj2 (collision_detected pmap newTitle)); [done|].
    split; [by eapply list_elem_of_lookup_2|done].
  - intros Hundetected i col Hi Htitle Hfirst.
    destruct (findIndex _ (map_collections pmap) >? 0) eqn:Hcheck.
    { apply collision_detected in Hcheck as [Hin Hhead].
      by destruct Hundetected. }
    clear Hcheck.
    rewrite (findIndex_first _ (map_collections pmap) i col).
    + unfold js_index.
      destruct (Z.ltb_spec (Z.of_nat i) 0) as [Hneg|_]; [lia|].
      rewrite Nat2Z.id, Hi. simpl.
      split; [done|]. split; [done|]. split; [|split; [|done]].
      * eexists _, _. split; [apply lookup_insert_eq|]. simpl.
        split; [by eapply list_lookup_insert_eq, lookup_lt_Some|].
        split; [done|]. split; [done|].
        split; [by intros j Hj; apply list_lookup_insert_ne|].
        split; [apply length_insert|done].
      * intros j Hj. by apply lookup_insert_ne.
    + done.
    + by rewrite bool_decide_eq_true.
    + intros j c Hj Hc. apply bool_decide_eq_false. by eapply Hfirst.
Qed.
End UpdateCollection.

(** ** The Collection invariant *)

Lemma NoDup_rename (l : list string) (i : nat) t :
  NoDup l → t ∉ l → NoDup (<[i := t]> l).
Proof.
  intros Hnd Hfresh. apply NoDup_alt. intros a b x Ha Hb.
  apply list_lookup_insert_Some in Ha as [(-> & -> & _) | [Hia Ha]];
    apply list_lookup_insert_Some in Hb as [(Hb1 & Hb2 & _) | [Hib Hb]].
  - done.
  - destruct Hfresh. by eapply list_elem_of_lookup_2.
  - subst. destruct Hfresh. by eapply list_elem_of_lookup_2.
  - by eapply (proj1 (NoDup_alt l)).
Qed.

Lemma titlesDistinct_maps (s s' : Store) :
  maps s' = maps s → titlesDistinct s → titlesDistinct s'.
Proof. unfold titlesDistinct. by intros ->. Qed.

Lemma titlesDistinct_lookup (s : Store) i m :
  titlesDistinct s → maps s !! i = Some m → NoDup (titlesOf m).
Proof. intros Hs Hm. by apply (map_Forall_lookup_1 _ _ _ _ Hs Hm). Qed.

Lemma titlesDistinct_survivors (ms : gmap Id PMap) f :
  map_Forall (λ _ m, NoDup (titlesOf m)) ms →
  map_Forall (λ _ m, NoDup (titlesOf m)) (survivors matchesPMap f ms).
Proof.
  intros Hs i m Hm. apply survivors_lookup in Hm as [Hm _]. by apply (Hs i).
Qed.

(** What is left to prove once an operation has been run symbolically:
    the maps of the resulting store are the old ones, or the old ones
    with documents inserted, deleted or filtered out. *)
Ltac settle_titles :=
  unfold titlesDistinct in *; simpl;
  repeat first
    [ assumption
    | apply map_Forall_delete
    | apply titlesDistinct_survivors
    | apply map_Forall_insert_2 ].

Ltac run_op :=
  unfold_M; cbv beta;
  repeat match goal with
    | |- context [validate_arguments ?l ?w] =>
        destruct (validate_arguments_cases l w) as [-> | [? ->]]; simpl
    end.

Section Invariant.
Context `{Platform}.
Variable w : World.
Hypothesis distinct : titlesDistinct (db w).

Lemma registerUser_titles n s e p :
  titlesDistinct (db (registerUser n s e p w).2).
Proof.
  unfold registerUser, validate_email, User_findOne, bcrypt_hashM, User_create.
  run_op; [|done].
  destruct (email_wellFormed e); simpl; [|done].
  destruct (find _ _); simpl; done.
Qed.

Lemma authenticateUser_titles e p :
  titlesDistinct (db (authenticateUser e p w).2).
Proof.
  unfold authenticateUser, validate_email, User_findOne.
  run_op; [|done].
  destruct (email_wellFormed e); simpl; [|done].
  destruct (find _ _) as [[i u]|]; simpl; [|done].
  by destruct (bcrypt_compare _ _).
Qed.

Lemma retrieveUser_titles u : titlesDistinct (db (retrieveUser u w).2).
Proof.
  unfold retrieveUser, User_findById. run_op; [|done].
  destruct (users (db w) !! u); cast_done.
Qed.

Lemma updateUser_titles u d : titlesDistinct (db (updateUser u d w).2).
Proof.
  unfold updateUser, User_findByIdAndUpdate. run_op; [|done].
  destruct (users (db w) !! u); cast_done.
Qed.

Lemma removeUser_titles u : titlesDistinct (db (removeUser u w).2).
Proof.
  unfold removeUser, User_findById, Pin_deleteMany, PMap_deleteMany,
    User_findByIdAndDelete.
  run_op; [|done].
  destruct (users (db w) !! u); simpl; [|cast_done]. settle_titles.
Qed.

Lemma retrieveUserMaps_titles u : titlesDistinct (db (retrieveUserMaps u w).2).
Proof. unfold retrieveUserMaps, PMap_find. run_op; cast_done. Qed.

Lemma retrieveUserMap_titles u i : titlesDistinct (db (retrieveUserMap u i w).2).
Proof.
  unfold retrieveUserMap, PMap_findById, populate_collections_pins.
  run_op; [|done].
  destruct (maps (db w) !! i) as [m|]; simpl; [|cast_done].
  by destruct (negb (map_isPublic m) && _).
Qed.

Lemma createMap_titles u t d c : titlesDistinct (db (createMap u t d c w).2).
Proof.
  unfold createMap, PMap_create. run_op; [|done].
  settle_titles. apply NoDup_nil_2.
Qed.

Lemma updatedMap_titles d m : titlesOf (updatedMap d m) = titlesOf m.
Proof.
  unfold updatedMap, assignIfTruthy, titlesOf.
  destruct (md_title d) as [t|], (md_description d) as [de|],
    (md_coverImage d) as [c|];
    repeat match goal with |- context [js_truthy ?v] => destruct (js_truthy v) end;
    reflexivity.
Qed.

Lemma updateMap_titles u i d : titlesDistinct (db (updateMap u i d w).2).
Proof.
  unfold updateMap, PMap_findById, PMap_save. run_op; [|done].
  destruct (maps (db w) !! i) as [m|] eqn:Hm; simpl; [|cast_done].
  destruct (negb (ObjectId_equals (map_author m) u)); simpl; [done|].
  settle_titles.
  change (NoDup (titlesOf (updatedMap d m))).
  rewrite updatedMap_titles. by eapply titlesDistinct_lookup.
Qed.

Lemma updatePin_titles u i d : titlesDistinct (db (updatePin u i d w).2).
Proof.
  unfold updatePin, Pin_findById, Pin_save. run_op; [|done].
  destruct (pins (db w) !! i) as [p|]; simpl; [|cast_done].
  by destruct (negb (ObjectId_equals (pin_author p) u)).
Qed.

Lemma removeMap_titles u i : titlesDistinct (db (removeMap u i w).2).
Proof.
  unfold removeMap, PMap_findById, Pin_deleteMany, PMap_findByIdAndDelete.
  run_op; [|done].
  destruct (maps (db w) !! i) as [m|]; simpl; [|cast_done].
  destruct (negb (ObjectId_equals (map_author m) u)); simpl; [done|].
  settle_titles.
Qed.

Lemma removePin_titles u i : titlesDistinct (db (removePin u i w).2).
Proof.
  unfold removePin, Pin_findOneAndDelete. run_op; [|done].
  destruct (pins (db w) !! i) as [p|]; simpl; [|cast_done].
  rewrite (bool_decide_eq_true_2 (i = i)) by done.
  destruct (bool_decide (pin_author p = u)); simpl; cast_done.
Qed.

Lemma js_index_lookup {A} (l : list A) z x :
  js_index l z = Some x → l !! Z.to_nat z = Some x.
Proof. unfold js_index. by destruct (z <? 0). Qed.

Lemma createCollection_titles u i t :
  titleSafe (OpCreateCollection u i t) (db w) →
  titlesDistinct (db (createCollection u i t w).2).
Proof.
  intros Hsafe. unfold createCollection, PMap_findById, PMap_save.
  run_op; [|done].
  destruct (maps (db w) !! i) as [m|] eqn:Hm; simpl; [|cast_done].
  unfold ObjectId_equals.
  destruct (bool_decide_reflect (map_author m = u)) as [Hu|]; simpl; [|done].
  settle_titles. unfold titlesOf. simpl. rewrite fmap_app. simpl.
  apply NoDup_app. split; [by eapply titlesDistinct_lookup|]. split.
  - intros x Hx [->|[]%elem_of_nil]%elem_of_cons. by apply (Hsafe m Hm Hu).
  - apply NoDup_singleton.
Qed.

Lemma updateCollection_titles u i t t' :
  titleSafe (OpUpdateCollection u i t t') (db w) →
  titlesDistinct (db (updateCollection u i t t' w).2).
Proof.
  intros Hsafe. unfold updateCollection, PMap_findById, PMap_save.
  run_op; [|done].
  destruct (maps (db w) !! i) as [m|] eqn:Hm; simpl; [|cast_done].
  unfold ObjectId_equals.
  destruct (bool_decide_reflect (map_author m = u)) as [Hu|]; simpl; [|done].
  destruct (findIndex _ (map_collections m) >? 0) eqn:Hcheck; simpl; [done|].
  destruct (js_index _ _) as [col|]; simpl; [|done].
  settle_titles. unfold titlesOf. simpl. rewrite list_fmap_insert. simpl.
  apply NoDup_rename; [by eapply titlesDistinct_lookup|].
  intros Hin.
  assert ((findIndex (λ col, bool_decide (col_title col = t'))
             (map_collections m) >? 0) = true) as Hfires.
  { apply collision_detected. split; [done|]. by apply Hsafe. }
  congruence.
Qed.

Lemma createPin_titles u i t p : titlesDistinct (db (createPin u i t p w).2).
Proof.
  unfold createPin, PMap_findById, Pin_create, PMap_save. run_op; [|done].
  destruct (maps (db w) !! i) as [m|] eqn:Hm; simpl; [|cast_done].
  destruct (negb (ObjectId_equals (map_author m) u)); simpl; [done|].
  destruct (findIndex _ (map_collections m) <? 0); simpl; [done|].
  destruct (np_coordinates p); simpl; [|done].
  destruct (js_index _ _) as [col|] eqn:Hcol; simpl; [|done].
  settle_titles. unfold titlesOf. simpl. rewrite list_fmap_insert. simpl.
  rewrite list_insert_id.
  - by eapply titlesDistinct_lookup.
  - rewrite list_lookup_fmap. by rewrite (js_index_lookup _ _ _ Hcol).
Qed.

Lemma removeCollection_titles u i t :
  titlesDistinct (db (removeCollection u i t w).2).
Proof.
  unfold removeCollection, PMap_findById, PMap_save, Pin_deleteMany.
  run_op; [|done].
  destruct (maps (db w) !! i) as [m|] eqn:Hm; simpl; [|cast_done].
  destruct (negb (ObjectId_equals (map_author m) u)); simpl; [done|].
  destruct (findIndex _ (map_collections m) =? -1); simpl; [done|].
  destruct (js_index _ _) as [col|]; simpl; [|done].
  settle_titles. unfold titlesOf. simpl. rewrite list_fmap_delete.
  eapply sublist_NoDup; [by eapply titlesDistinct_lookup|].
  apply sublist_delete.
Qed.

(** Serving a title-safe request keeps the Collection invariant. *)
Lemma exec_titles o :
  titleSafe o (db w) → titlesDistinct (db (exec o w)).
Proof.
  destruct o; intros Hsafe; simpl.
  - apply registerUser_titles.
  - apply authenticateUser_titles.
  - apply retrieveUser_titles.
  - apply updateUser_titles.
  - apply removeUser_titles.
  - apply retrieveUserMaps_titles.
  - apply retrieveUserMap_titles.
  - apply createMap_titles.
  - apply updateMap_titles.
  - by apply createCollection_titles.
  - by apply updateCollection_titles.
  - apply createPin_titles.
  - apply updatePin_titles.
  - apply removeMap_titles.
  - apply removeCollection_titles.
  - apply removePin_titles.
Qed.

End Invariant.

(** X28. What the code does keep of the Collection invariant.  Along any
    sequence of requests in which no createCollection by the owner
    repeats a title of the Map, and no updateCollection by the owner
    renames towards the title held at index 0, every store reached from
    one with pairwise distinct collection titles has pairwise distinct
    collection titles. *)
Theorem titlesDistinct_preserved `{Platform} w w' :
  titlesDistinct (db w) → reachableSafely w w' → titlesDistinct (db w').
Proof.
  intros Hw Hreach. induction Hreach as [|w' o _ IH Hsafe]; [done|].
  by apply exec_titles.
Qed.

(** ** The invariant is not kept by every request *)

Section DemoClaims.
#[local] Existing Instance demoPlatform.

Lemma demoWorld_titlesDistinct : titlesDistinct (db demoWorld).
Proof.
  intros i m Hm. simpl in Hm.
  apply lookup_insert_Some in Hm as [[_ <-] | [_ Hm]].
  - unfold titlesOf; simpl. apply NoDup_cons. split; [|apply NoDup_singleton].
    by intros [?|?%elem_of_nil]%elem_of_cons.
  - apply lookup_singleton_Some in Hm as [_ <-]. apply NoDup_nil_2.
Qed.

Lemma demoWorld_duplicate_titles (w : World) pins0 pins1 pins2 :
  maps (db w) !! "m1"
    = Some (mkPMap "Coast" "desc" "img" false "u1"
              (mkCollection "Trips" pins0 :: mkCollection "Trips" pins1
                 :: pins2)) →
  ¬ titlesDistinct (db w).
Proof.
  intros Hm Hdistinct.
  pose proof (titlesDistinct_lookup _ _ _ Hdistinct Hm) as Hnd.
  unfold titlesOf in Hnd; simpl in Hnd.
  apply NoDup_cons in Hnd as [Hnotin _]. apply Hnotin. by left.
Qed.

(** C3. The invariant does not hold in every reachable store.  From the
    demo world, whose Map "m1" holds the Collections "Trips" and "Food"
    (distinct titles), the owner's createCollection with the title
    "Trips" succeeds and leaves two Collections titled "Trips"; so does
    the owner's updateCollection of "Food" into "Trips", whose check
    overlooks the Collection at index 0. *)
Theorem titlesDistinct_broken :
  titlesDistinct (db demoWorld)
  ∧ (createCollection "u1" "m1" "Trips" demoWorld).1 = Ok 3%nat
  ∧ titlesOf <$> maps (db (createCollection "u1" "m1" "Trips" demoWorld).2)
                   !! "m1" = Some ["Trips"; "Food"; "Trips"]
  ∧ ¬ titlesDistinct (db (createCollection "u1" "m1" "Trips" demoWorld).2)
  ∧ (updateCollection "u1" "m1" "Food" "Trips" demoWorld).1 = Ok tt
  ∧ titlesOf <$> maps (db (updateCollection "u1" "m1" "Food" "Trips"
                             demoWorld).2) !! "m1" = Some ["Trips"; "Trips"]
  ∧ ¬ titlesDistinct
        (db (updateCollection "u1" "m1" "Food" "Trips" demoWorld).2).
Proof.
  split; [apply demoWorld_titlesDistinct|].
  split; [reflexivity|]. split; [reflexivity|]. split.
  { intros Hdistinct.
    assert (maps (db (createCollection "u1" "m1" "Trips" demoWorld).2) !! "m1"
            = Some (mkPMap "Coast" "desc" "img" false "u1"
                      [mkCollection "Trips" ["p1"]; mkCollection "Food" [];
                       mkCollection "Trips" []])) as Hm by reflexivity.
    pose proof (titlesDistinct_lookup _ _ _ Hdistinct Hm) as Hnd.
    unfold titlesOf in Hnd; simpl in Hnd.
    apply NoDup_cons in Hnd as [Hnotin _]. apply Hnotin.
    apply elem_of_cons. right. apply elem_of_cons. by left. }
  split; [reflexivity|]. split; [reflexivity|].
  by apply (demoWorld_duplicate_titles _ ["p1"] [] []).
Qed.

(** Hence the invariant is not kept along every sequence of requests. *)
Lemma titlesDistinct_not_invariant :
  ¬ (∀ w w', titlesDistinct (db w) →
             @reachable demoPlatform w w' → titlesDistinct (db w')).
Proof.
  intros Hinv.
  pose (w' := @exec demoPlatform (OpCreateCollection "u1" "m1" "Trips")
                demoWorld).
  assert (titlesDistinct (db w')) as Hbad.
  { apply (Hinv demoWorld); [apply demoWorld_titlesDistinct|].
    apply reachable_step, reachable_refl. }
  assert (maps (db w') !! "m1" =
          Some (mkPMap "Coast" "desc" "img" false "u1"
                  [mkCollection "Trips" ["p1"]; mkCollection "Food" [];
                   mkCollection "Trips" []])) as Hm by reflexivity.
  pose proof (titlesDistinct_lookup _ _ _ Hbad Hm) as Hnd.
  unfold titlesOf in Hnd; simpl in Hnd.
  apply NoDup_cons in Hnd as [Hnotin _]. apply Hnotin.
  apply elem_of_cons. right. apply elem_of_cons. by left.
Qed.

(** Registration in an empty store, with the demo platform. *)
Example registerUser_emptyWorld_run :
  (@registerUser demoPlatform "Eva" "Gil" "eva@mail.com" "secret"
     emptyWorld).1 = Ok "0"
  ∧ (@registerUser demoPlatform "Eva" "Gil" "evamail.com" "secret"
       emptyWorld).1 = Err (ValidationError "email")
  ∧ (@registerUser demoPlatform "Eva" "" "eva@mail.com" "secret"
       emptyWorld).1 = Err (ValidationError "surname").
Proof. repeat split. Qed.

(** The collision at index 0 that updateCollection lets through: "Food"
    is renamed to "Trips" although index 0 holds "Trips". *)
Example updateCollection_index0_run :
  maps (db (updateCollection "u1" "m1" "Food" "Trips" demoWorld).2) !! "m1"
  = Some (mkPMap "Coast" "desc" "img" false "u1"
            [mkCollection "Trips" ["p1"]; mkCollection "Trips" []]).
Proof. reflexivity. Qed.

(** The same collision the other way round is caught. *)
Example updateCollection_index1_run :
  (updateCollection "u1" "m1" "Trips" "Food" demoWorld).1
  = Err (LogicError "error updating, collection Food already exist on map m1").
Proof. reflexivity. Qed.

(** ** The theorems at work on the demo world *)

Lemma demoWorld_m1 : maps (db demoWorld) !! "m1" = Some demoMap1.
Proof. reflexivity. Qed.

Lemma demoWorld_u1 : users (db demoWorld) !! "u1" = Some ana.
Proof. reflexivity. Qed.

Lemma demo_bcrypt p rounds salt :
  @bcrypt_compare demoPlatform p (@bcrypt_hash demoPlatform p rounds salt)
  = true.
Proof. simpl. by apply bool_decide_eq_true_2. Qed.

(** C1 as stated fails: "no such id" is a non-empty map id under which
    no Map exists, and retrieveUserMap does not fail with LogicError
    on it, but with the CastError of the query. *)
Lemma retrieveUserMap_castError :
  maps (db demoWorld) !! "no such id" = None
  ∧ (retrieveUserMap "u1" "no such id" demoWorld).1
      = Err (CastError "no such id")
  ∧ ¬ isLogicError (retrieveUserMap "u1" "no such id" demoWorld).1.
Proof. split; [reflexivity|]. split; [reflexivity|]. intros []. Qed.

Lemma retrieveUserMap_visibility_witness :
  isLogicError (retrieveUserMap "u2" "5d41402abc4b2a76b9719d91" demoWorld).1
  ∧ (retrieveUserMap "u2" "no such id" demoWorld).1
      = Err (CastError "no such id")
  ∧ isLogicError (retrieveUserMap "u2" "m1" demoWorld).1
  ∧ isOk (retrieveUserMap "u1" "m1" demoWorld).1
  ∧ isOk (retrieveUserMap "u2" "m2" demoWorld).1.
Proof.
  split; [|split; [|split; [|split]]].
  - apply (retrieveUserMap_visibility "u2" "5d41402abc4b2a76b9719d91"
             demoWorld); [done|done|reflexivity|reflexivity].
  - destruct (retrieveUserMap_visibility "u2" "no such id" demoWorld)
      as (_ & Hcast & _); [done|done|].
    apply Hcast; reflexivity.
  - destruct (retrieveUserMap_visibility "u2" "m1" demoWorld)
      as (_ & _ & Hprivate & _); [done|done|].
    by apply (Hprivate demoMap1).
  - destruct (retrieveUserMap_visibility "u1" "m1" demoWorld)
      as (_ & _ & _ & Hvisible); [done|done|].
    rewrite (Hvisible demoMap1); [exact I|reflexivity|by right].
  - destruct (retrieveUserMap_visibility "u2" "m2" demoWorld)
      as (_ & _ & _ & Hvisible); [done|done|].
    rewrite (Hvisible (mkPMap "City" "" "" true "u1" []));
      [exact I|reflexivity|by left].
Defined.

Lemma registerUser_then_authenticateUser_witness :
  ∃ id w',
    @registerUser demoPlatform "Eva" "Gil" "eva@mail.com" "secret" demoWorld
      = (Ok id, w')
    ∧ (@authenticateUser demoPlatform "eva@mail.com" "secret" w').1 = Ok id.
Proof.
  apply (@registerUser_then_authenticateUser demoPlatform).
  - apply demo_bcrypt.
  - repeat split; done.
  - intros i u Hu. simpl in Hu.
    apply lookup_singleton_Some in Hu as [_ <-]. done.
Defined.

Lemma titlesDistinct_preserved_witness :
  titlesDistinct
    (db (@exec demoPlatform (OpCreateCollection "u1" "m1" "Beach") demoWorld)).
Proof.
  apply (@titlesDistinct_preserved demoPlatform demoWorld).
  - apply demoWorld_titlesDistinct.
  - apply reachableSafely_step; [apply reachableSafely_refl|].
    intros m Hm _. rewrite demoWorld_m1 in Hm. injection Hm as <-.
    unfold titlesOf; simpl.
    by intros [?|[?|?%elem_of_nil]%elem_of_cons]%elem_of_cons.
Defined.

Lemma demo_Hills_fresh : "Hills" ∉ titlesOf demoMap1.
Proof.
  unfold titlesOf; simpl.
  by intros [?|[?|?%elem_of_nil]%elem_of_cons]%elem_of_cons.
Qed.

Lemma updateCollection_collision_witness :
  (isLogicError (updateCollection "u1" "m1" "Trips" "Food" demoWorld).1
   ∧ maps (db (updateCollection "u1" "m1" "Trips" "Food" demoWorld).2) !! "m1"
     = Some demoMap1)
  ∧ (updateCollection "u1" "m1" "Trips" "Hills" demoWorld).1 = Ok tt
  ∧ ∃ pmap' col',
      maps (db (updateCollection "u1" "m1" "Trips" "Hills" demoWorld).2)
        !! "m1" = Some pmap'
      ∧ map_collections pmap' !! 0%nat = Some col'
      ∧ col_title col' = "Hills"
      ∧ col_pins col' = ["p1"]
      ∧ map_collections pmap' !! 1%nat = Some (mkCollection "Food" [])
      ∧ length (map_collections pmap') = 2%nat
      ∧ map_title pmap' = map_title demoMap1
      ∧ map_author pmap' = "u1"
      ∧ titlesOf
          <$> maps (db (updateCollection "u1" "m1" "Food" "Trips"
                          demoWorld).2) !! "m1"
        = Some ["Trips"; "Trips"].
Proof.
  split.
  - destruct (updateCollection_collision "u1" "m1" "Trips" "Food"
                demoWorld demoMap1) as [Hdetected _];
      [done|done|done|done|reflexivity|reflexivity|].
    destruct (Hdetected 1%nat) as [Herr Hdb]; [lia|reflexivity|done|].
    split; [exact Herr|]. by rewrite Hdb.
  - destruct (updateCollection_collision "u1" "m1" "Trips" "Hills"
                demoWorld demoMap1) as [_ Hrename];
      [done|done|done|done|reflexivity|reflexivity|].
    destruct (Hrename (or_intror demo_Hills_fresh) 0%nat
                (mkCollection "Trips" ["p1"]))
      as (Hok & _ & (pmap' & col' & Hm & Hc & Ht & Hp & Hrest & Hlen
                     & Htitle & _ & _ & _ & Hauthor) & _);
      [reflexivity|reflexivity|intros j c Hj; lia|].
    split; [exact Hok|]. exists pmap', col'.
    split; [exact Hm|]. split; [exact Hc|]. split; [exact Ht|].
    split; [exact Hp|]. split; [by rewrite Hrest|].
    split; [exact Hlen|]. split; [exact Htitle|]. split; [exact Hauthor|].
    destruct (updateCollection_collision "u1" "m1" "Food" "Trips"
                demoWorld demoMap1) as [_ Hhead];
      [done|done|done|done|reflexivity|reflexivity|].
    destruct (Hhead (or_introl eq_refl) 1%nat (mkCollection "Food" []))
      as (_ & Hdb & _); [reflexivity|reflexivity| |].
    { intros [|j] c Hj Hc0; [|lia]. injection Hc0 as <-. done. }
    by rewrite Hdb.
Defined.

Lemma updateMap_not_owner_witness :
  isLogicError (updateMap "u2" "m1" demoMapData demoWorld).1
  ∧ maps (db (updateMap "u2" "m1" demoMapData demoWorld).2)
      !! "m1" = Some demoMap1.
Proof.
  destruct (updateMap_not_owner "u2" "m1" demoMapData demoWorld
              demoMap1) as (Hfails & _ & Hsame);
    [done|done|reflexivity|done|].
  by split.
Defined.

Lemma updateMap_frame_witness :
  ∃ m', (updateMap "u1" "m1" demoMapData demoWorld).1 = Ok m'
        ∧ map_title m' = "Shore"
        ∧ map_description m' = "desc"
        ∧ map_coverImage m' = "img"
        ∧ map_collections m' = map_collections demoMap1.
Proof.
  destruct (updateMap_frame "u1" "m1" demoMapData demoWorld
              demoMap1)
    as (m' & Hok & _ & _ & _ & Htitle & _ & _ & Hdescription & _ & Hcover
        & _ & _ & Hcollections);
    [done|done|reflexivity|reflexivity|].
  exists m'. split; [done|]. split; [by apply Htitle|].
  split; [apply Hdescription; by right|].
  split; [apply Hcover; by left|done].
Defined.

Lemma removeUser_cascade_witness :
  noMapBy "u1" (db (removeUser "u1" demoWorld).2)
  ∧ noPinBy "u1" (db (removeUser "u1" demoWorld).2)
  ∧ users (db (removeUser "u1" demoWorld).2) !! "u1" = None.
Proof.
  destruct (removeUser_cascade "u1" demoWorld ana)
    as (_ & Hmaps & Hpins & Huser & _); [done|reflexivity|].
  by repeat split.
Defined.

Lemma removePin_once_only_witness :
  (removePin "u1" "p1" demoWorld).1 = Ok tt
  ∧ isLogicError
      (removePin "u1" "p1"
         (removePin "u1" "p1" demoWorld).2).1.
Proof.
  destruct (removePin_once_only "u1" "p1") with (w := demoWorld)
    as (Hfirst & _ & Hsecond); [done|done|].
  split; [|done].
  by apply (Hfirst (demoPin "u1" "m1")).
Defined.

(** C9 as stated fails: "no such id" passes validation, and
    retrieveUserMaps fails on it, with the CastError of the query. *)
Lemma retrieveUserMaps_castError :
  "no such id" ≠ ""
  ∧ (retrieveUserMaps "no such id" demoWorld).1
      = Err (CastError "no such id")
  ∧ ¬ isOk (retrieveUserMaps "no such id" demoWorld).1.
Proof. split; [done|]. split; [reflexivity|]. intros []. Qed.

Lemma retrieveUserMaps_never_fails_witness :
  (retrieveUserMaps "5d41402abc4b2a76b9719d92" demoWorld).1 = Ok []
  ∧ (retrieveUserMaps "no such id" demoWorld).1
      = Err (CastError "no such id").
Proof.
  assert (∀ u, u ≠ "u1" → noMapBy u (db demoWorld)) as Hnone.
  { intros u Hu i m Hm. simpl in Hm.
    apply lookup_insert_Some in Hm as [[_ <-] | [_ Hm]]; [by intros <-|].
    apply lookup_singleton_Some in Hm as [_ <-]. by intros <-. }
  split.
  - destruct (retrieveUserMaps_never_fails "5d41402abc4b2a76b9719d92"
                demoWorld) as (Hok & _); [done|].
    destruct Hok as (l & Hok & _ & Hempty); [reflexivity|].
    rewrite Hok, Hempty; [done|]. by apply Hnone.
  - destruct (retrieveUserMaps_never_fails "no such id" demoWorld)
      as (_ & Hcast & _); [done|].
    apply Hcast. reflexivity.
Defined.


End DemoClaims.

(** * Beyond the claims *)

(** ** Checks come before writes *)

Lemma findIndex_js_index {A} (p : A → bool) l :
  findIndex p l ≠ -1 → ∃ x, js_index l (findIndex p l) = Some x ∧ p x = true.
Proof.
  intros Hfound. pose proof (findIndex_lower p l) as Hlow.
  destruct (findIndex_found p l) as (x & Hx & Hp); [lia|].
  exists x. split; [|done]. unfold js_index.
  destruct (Z.ltb_spec (findIndex p l) 0); [lia|done].
Qed.

Section ChecksFirst.
Context `{Platform}.

Lemma registerUser_checksFirst n s e p : checksFirst None (registerUser n s e p).
Proof.
  intros w.
  unfold registerUser, validate_email, User_findOne, bcrypt_hashM, User_create.
  run_op; [|done]. destruct (email_wellFormed e); simpl; [|done].
  by destruct (find _ _).
Qed.

Lemma authenticateUser_checksFirst e p : checksFirst None (authenticateUser e p).
Proof.
  intros w. unfold authenticateUser, validate_email, User_findOne.
  run_op; [|done]. destruct (email_wellFormed e); simpl; [|done].
  destruct (find _ _) as [[i u]|]; simpl; [|done].
  by destruct (bcrypt_compare _ _).
Qed.

Lemma retrieveUser_checksFirst u : checksFirst (Some u) (retrieveUser u).
Proof.
  intros w. unfold retrieveUser, User_findById. run_op; [|done].
  destruct (users (db w) !! u); cast_done.
Qed.

Lemma updateUser_checksFirst u d : checksFirst None (updateUser u d).
Proof.
  intros w. unfold updateUser, User_findByIdAndUpdate. run_op; [|done].
  destruct (users (db w) !! u); cast_done.
Qed.

Lemma removeUser_checksFirst u : checksFirst (Some u) (removeUser u).
Proof.
  intros w.
  unfold removeUser, User_findById, Pin_deleteMany, PMap_deleteMany,
    User_findByIdAndDelete.
  run_op; [|done]. destruct (users (db w) !! u); cast_done.
Qed.

Lemma retrieveUserMaps_checksFirst u : checksFirst (Some u) (retrieveUserMaps u).
Proof. intros w. unfold retrieveUserMaps, PMap_find. run_op; cast_done. Qed.

Lemma retrieveUserMap_checksFirst u i : checksFirst (Some i) (retrieveUserMap u i).
Proof.
  intros w. unfold retrieveUserMap, PMap_findById, populate_collections_pins.
  run_op; [|cast_done]. destruct (maps (db w) !! i) as [m|]; simpl; [|cast_done].
  by destruct (negb (map_isPublic m) && _).
Qed.

Lemma createMap_checksFirst u t d c : checksFirst None (createMap u t d c).
Proof. intros w. unfold createMap, PMap_create. by run_op. Qed.

Lemma updateMap_checksFirst u i d : checksFirst (Some i) (updateMap u i d).
Proof.
  intros w. unfold updateMap, PMap_findById, PMap_save. run_op; [|done].
  destruct (maps (db w) !! i) as [m|]; simpl; [|cast_done].
  by destruct (negb (ObjectId_equals (map_author m) u)).
Qed.

Lemma createCollection_checksFirst u i t : checksFirst (Some i) (createCollection u i t).
Proof.
  intros w. unfold createCollection, PMap_findById, PMap_save.
  run_op; [|cast_done]. destruct (maps (db w) !! i) as [m|]; simpl; [|cast_done].
  by destruct (negb (ObjectId_equals (map_author m) u)).
Qed.

Lemma updateCollection_checksFirst u i t t' :
  checksFirst (Some i) (updateCollection u i t t').
Proof.
  intros w. unfold updateCollection, PMap_findById, PMap_save.
  run_op; [|cast_done]. destruct (maps (db w) !! i) as [m|]; simpl; [|cast_done].
  destruct (negb (ObjectId_equals (map_author m) u)); simpl; [done|].
  destruct (findIndex _ (map_collections m) >? 0); simpl; [done|].
  by destruct (js_index _ _).
Qed.

Lemma createPin_checksFirst u i t p : checksFirst None (createPin u i t p).
Proof.
  intros w. unfold createPin, PMap_findById, Pin_create, PMap_save.
  run_op; [|cast_done]. destruct (maps (db w) !! i) as [m|]; simpl; [|cast_done].
  destruct (negb (ObjectId_equals (map_author m) u)); simpl; [done|].
  destruct (Z.ltb_spec (findIndex (λ col, bool_decide (col_title col = t))
                          (map_collections m)) 0) as [Hneg|Hpos];
    simpl; [done|].
  destruct (np_coordinates p); simpl; [|done].
  destruct (findIndex_js_index (λ col, bool_decide (col_title col = t))
              (map_collections m)) as (col & -> & _); [lia|done].
Qed.

Lemma updatePin_checksFirst u i d : checksFirst (Some i) (updatePin u i d).
Proof.
  intros w. unfold updatePin, Pin_findById, Pin_save. run_op; [|done].
  destruct (pins (db w) !! i) as [p|]; simpl; [|cast_done].
  by destruct (negb (ObjectId_equals (pin_author p) u)).
Qed.

Lemma removeMap_checksFirst u i : checksFirst (Some i) (removeMap u i).
Proof.
  intros w.
  unfold removeMap, PMap_findById, Pin_deleteMany, PMap_findByIdAndDelete.
  run_op; [|cast_done]. destruct (maps (db w) !! i) as [m|]; simpl; [|cast_done].
  by destruct (negb (ObjectId_equals (map_author m) u)).
Qed.

Lemma removeCollection_checksFirst u i t : checksFirst (Some i) (removeCollection u i t).
Proof.
  intros w. unfold removeCollection, PMap_findById, PMap_save, Pin_deleteMany.
  run_op; [|cast_done]. destruct (maps (db w) !! i) as [m|]; simpl; [|cast_done].
  destruct (negb (ObjectId_equals (map_author m) u)); simpl; [done|].
  destruct (Z.eqb_spec (findIndex (λ col, bool_decide (col_title col = t))
                          (map_collections m)) (-1)) as [Hnone|Hfound];
    simpl; [done|].
  by destruct (findIndex_js_index _ _ Hfound) as (col & -> & _).
Qed.

Lemma removePin_checksFirst u i : checksFirst None (removePin u i).
Proof.
  intros w. unfold removePin, Pin_findOneAndDelete. run_op; [|done].
  destruct (pins (db w) !! i) as [p|]; simpl; [|cast_done].
  rewrite (bool_decide_eq_true_2 (i = i)) by done.
  destruct (bool_decide (pin_author p = u)); simpl; cast_done.
Qed.

Lemma checksFirst_failure {A} cast (m : M A) w :
  checksFirst cast m →
  match errorOf (m w).1 with
  | None => True
  | Some (ValidationError _) => (m w).2 = w
  | Some (LogicError _) => db (m w).2 = db w
  | Some (JsTypeError _) => False
  | Some (CastError v) =>
      (m w).2 = w ∧ cast = Some v ∧ ObjectId_isValid v = false
  end.
Proof.
  intros Hm. specialize (Hm w).
  destruct (m w) as [[a|[n|msg|msg|v]] w']; done.
Qed.

(** Every request runs its checks before its first write. *)
Lemma exec_checksFirst o w :
  match failure o w with
  | None => True
  | Some (ValidationError _) => exec o w = w
  | Some (LogicError _) => db (exec o w) = db w
  | Some (JsTypeError _) => False
  | Some (CastError v) =>
      exec o w = w ∧ unguardedId o = Some v ∧ ObjectId_isValid v = false
  end.
Proof.
  destruct o; simpl; apply checksFirst_failure.
  - apply registerUser_checksFirst.
  - apply authenticateUser_checksFirst.
  - apply retrieveUser_checksFirst.
  - apply updateUser_checksFirst.
  - apply removeUser_checksFirst.
  - apply retrieveUserMaps_checksFirst.
  - apply retrieveUserMap_checksFirst.
  - apply createMap_checksFirst.
  - apply updateMap_checksFirst.
  - apply createCollection_checksFirst.
  - apply updateCollection_checksFirst.
  - apply createPin_checksFirst.
  - apply updatePin_checksFirst.
  - apply removeMap_checksFirst.
  - apply removeCollection_checksFirst.
  - apply removePin_checksFirst.
Qed.

(** X1. A request that fails validation leaves the whole world as it
    was: the store, and the log of store calls, so no store call was
    issued. *)
Theorem validation_before_store o w n :
  failure o w = Some (ValidationError n) → exec o w = w.
Proof.
  intros Hfail. pose proof (exec_checksFirst o w) as Hchecks.
  by rewrite Hfail in Hchecks.
Qed.


(** X3. A request that fails leaves the store as it was: every check of
    every operation precedes its first write. *)
Theorem failure_leaves_store o w e :
  failure o w = Some e → db (exec o w) = db w.
Proof.
  intros Hfail. pose proof (exec_checksFirst o w) as Hchecks.
  rewrite Hfail in Hchecks. destruct e as [n|msg|msg|v]; [|done|done|].
  - by rewrite Hchecks.
  - destruct Hchecks as [-> _]. done.
Qed.

End ChecksFirst.

(** ** Users *)

Lemma findOne_found (s : Store) email i u :
  List.find (λ kv, matchesUser (ByEmail email) kv.1 kv.2)
            (map_to_list (users s)) = Some (i, u) →
  users s !! i = Some u ∧ user_email u = email.
Proof.
  intros Hfind. apply find_some in Hfind as [Hin Hmatch].
  unfold matchesUser in Hmatch. simpl in Hmatch.
  apply list_elem_of_In, elem_of_map_to_list in Hin.
  by apply bool_decide_eq_true in Hmatch.
Qed.

Lemma findOne_exists (s : Store) email i u :
  users s !! i = Some u → user_email u = email →
  ∃ j v, List.find (λ kv, matchesUser (ByEmail email) kv.1 kv.2)
                   (map_to_list (users s)) = Some (j, v).
Proof.
  intros Hu Hemail.
  destruct (List.find _ _) as [[j v]|] eqn:Hfind; [by exists j, v|].
  assert (In (i, u) (map_to_list (users s))) as Hin
    by by apply list_elem_of_In, elem_of_map_to_list.
  pose proof (find_none _ _ Hfind _ Hin) as Hno.
  unfold matchesUser in Hno. simpl in Hno.
  by rewrite bool_decide_eq_true_2 in Hno.
Qed.

Lemma authenticateUser_run `{Platform} email password w :
  email ≠ "" → password ≠ "" → email_wellFormed email = true →
  authenticateUser email password w =
    let w1 := mkWorld (db w) (log w ++ [mkCall MUser VfindOne (ByEmail email)])
                      (entropy w) in
    match List.find (λ kv, matchesUser (ByEmail email) kv.1 kv.2)
                    (map_to_list (users (db w))) with
    | None => (Err (LogicError ("user with email " +:+ email
                                +:+ " doesn't exists")), w1)
    | Some (id, user) =>
        if bcrypt_compare password (user_password user) then (Ok id, w1)
        else (Err (LogicError "wrong credentials"), w1)
    end.
Proof.
  intros Hemail Hpassword Hwf.
  unfold authenticateUser, validate_email, User_findOne.
  unfold_M. pass_validation. rewrite Hwf. simpl.
  destruct (find _ _) as [[i u]|]; [|done].
  by destruct (bcrypt_compare _ _).
Qed.

(** X4. On valid arguments, authenticateUser fails with LogicError, and
    writes nothing, whenever bcrypt accepts the password for no stored
    user of that e-mail: so for an unknown e-mail, and for a wrong
    password. *)
Theorem authenticateUser_rejects `{Platform} email password w :
  email ≠ "" → password ≠ "" → email_wellFormed email = true →
  (∀ i u, users (db w) !! i = Some u → user_email u = email →
          bcrypt_compare password (user_password u) = false) →
  isLogicError (authenticateUser email password w).1
  ∧ db (authenticateUser email password w).2 = db w.
Proof.
  intros Hemail Hpassword Hwf Hreject.
  rewrite authenticateUser_run by done. cbv zeta.
  destruct (find _ _) as [[i u]|] eqn:Hfind; [|done].
  apply findOne_found in Hfind as [Hu Hmail].
  by rewrite (Hreject i u Hu Hmail).
Qed.

(** X5. On valid arguments, when exactly one stored user has the
    e-mail and bcrypt accepts the password for its digest,
    authenticateUser returns the id of that user. *)
Theorem authenticateUser_accepts `{Platform} email password w i u :
  email ≠ "" → password ≠ "" → email_wellFormed email = true →
  users (db w) !! i = Some u → user_email u = email →
  (∀ j v, users (db w) !! j = Some v → user_email v = email → j = i) →
  bcrypt_compare password (user_password u) = true →
  (authenticateUser email password w).1 = Ok i.
Proof.
  intros Hemail Hpassword Hwf Hu Hmail Hunique Haccept.
  rewrite authenticateUser_run by done. cbv zeta.
  destruct (findOne_exists (db w) email i u Hu Hmail) as (j & v & Hfind).
  rewrite Hfind. apply findOne_found in Hfind as [Hv Hvmail].
  assert (j = i) as -> by by eapply Hunique.
  assert (v = u) as -> by congruence.
  by rewrite Haccept.
Qed.

(** X6. On valid arguments, registerUser with an e-mail some stored
    user has fails with LogicError; nothing is stored and no digest is
    computed. *)
Theorem registerUser_duplicate `{Platform} name surname email password w i u :
  validRegistration name surname email password →
  users (db w) !! i = Some u → user_email u = email →
  isLogicError (registerUser name surname email password w).1
  ∧ db (registerUser name surname email password w).2 = db w
  ∧ entropy (registerUser name surname email password w).2 = entropy w.
Proof.
  intros (Hname & Hsurname & Hemail & Hpassword & Hwf) Hu Hmail.
  unfold registerUser, validate_email, User_findOne, bcrypt_hashM, User_create.
  unfold_M. pass_validation. rewrite Hwf. simpl.
  destruct (findOne_exists (db w) email i u Hu Hmail) as (j & v & Hfind).
  by rewrite Hfind.
Qed.

(** X7. On valid arguments, a free e-mail and an ObjectId generator
    that returns an unused id, registerUser stores the new user under
    the id it returns, with the bcrypt digest as password, and keeps
    every user, Map and Pin already stored. *)
Theorem registerUser_adds_one `{Platform} name surname email password w :
  validRegistration name surname email password →
  noUserWithEmail email (db w) →
  users (db w) !! ObjectId_new (dom (users (db w))) = None →
  ∃ id w',
    registerUser name surname email password w = (Ok id, w')
    ∧ users (db w') !! id
        = Some (mkUser name surname email
                  (bcrypt_hash password 10 (entropy w))
                  schema_avatar_default schema_language_default None)
    ∧ (∀ j v, users (db w) !! j = Some v → users (db w') !! j = Some v)
    ∧ (∀ j, j ≠ id → users (db w') !! j = users (db w) !! j)
    ∧ maps (db w') = maps (db w)
    ∧ pins (db w') = pins (db w).
Proof.
  intros Hvalid Hfree Hfresh. rewrite registerUser_run by done. cbv zeta.
  eexists _, _. split; [reflexivity|]. simpl.
  split; [apply lookup_insert_eq|]. split; [|split; [|done]].
  - intros j v Hj. rewrite lookup_insert_ne; [done|]. congruence.
  - intros j Hj. by rewrite lookup_insert_ne.
Qed.


Lemma retrieveUser_run `{Platform} userId w :
  userId ≠ "" →
  retrieveUser userId w =
    let w1 := mkWorld (db w) (log w ++ [mkCall MUser VfindById (ById userId)])
                      (entropy w) in
    match users (db w) !! userId with
    | Some u => (Ok (profileOf u), w1)
    | None =>
        if ObjectId_isValid userId
        then (Err (LogicError ("user with id " +:+ userId
                               +:+ " doesn't exists")), w1)
        else (Err (CastError userId), w)
    end.
Proof.
  intros Hid. unfold retrieveUser, User_findById. unfold_M.
  pass_validation. simpl. destruct (users (db w) !! userId); cast_done.
Qed.


(** X9. updateUser for an id no user has fails with LogicError (the
    TypeError of reading through the null result is caught) and stores
    nothing. *)
Theorem updateUser_missing `{Platform} userId data w :
  userId ≠ "" → users (db w) !! userId = None →
  (updateUser userId data w).1
    = Err (LogicError ("user with id " +:+ userId +:+ " doesn't exists"))
  ∧ db (updateUser userId data w).2 = db w.
Proof.
  intros Hid Hu. unfold updateUser, User_findByIdAndUpdate. unfold_M.
  pass_validation. simpl. rewrite Hu. simpl.
  by destruct (ObjectId_isValid userId).
Qed.

(** X10. removeUser of a stored user U keeps every other user, and
    keeps exactly the Maps and the Pins whose author is not U; a
    retrieveUser of U right after fails: with LogicError when the id
    casts to an ObjectId, as the ids the driver generates do, and with
    the CastError of the query otherwise. *)
Theorem removeUser_frame `{Platform} userId w u :
  userId ≠ "" → users (db w) !! userId = Some u →
  (∀ j, j ≠ userId →
        users (db (removeUser userId w).2) !! j = users (db w) !! j)
  ∧ (∀ i m, maps (db (removeUser userId w).2) !! i = Some m
            ↔ maps (db w) !! i = Some m ∧ map_author m ≠ userId)
  ∧ (∀ i p, pins (db (removeUser userId w).2) !! i = Some p
            ↔ pins (db w) !! i = Some p ∧ pin_author p ≠ userId)
  ∧ (ObjectId_isValid userId = true →
     isLogicError (retrieveUser userId (removeUser userId w).2).1)
  ∧ (retrieveUser userId (removeUser userId w).2).1
    = if ObjectId_isValid userId
      then Err (LogicError ("user with id " +:+ userId +:+ " doesn't exists"))
      else Err (CastError userId).
Proof.
  intros Hid Hu. rewrite (removeUser_run userId w u Hid Hu).
  rewrite retrieveUser_run by done. cbv zeta. simpl.
  rewrite lookup_delete_eq.
  split; [|split; [|split; [|split]]];
    [| | |by intros ->|by destruct (ObjectId_isValid userId)].
  - intros j Hj. by rewrite lookup_delete_ne.
  - intros i m. rewrite survivors_lookup. simpl.
    by rewrite bool_decide_eq_false.
  - intros i p. rewrite survivors_lookup. simpl.
    by rewrite bool_decide_eq_false.
Qed.

(** ** Maps *)



Section ForeignMaps.
Context `{Platform}.
Variables (w : World) (i : Id) (m : PMap).
Hypothesis stored : maps (db w) !! i = Some m.

Lemma owner_check_foreign u j m' :
  map_author m ≠ u → maps (db w) !! j = Some m' →
  ObjectId_equals (map_author m') u = true → j ≠ i.
Proof.
  intros Hforeign Hj Hcheck ->. rewrite stored in Hj. injection Hj as <-.
  by apply bool_decide_eq_true in Hcheck.
Qed.

Ltac foreign_insert Hforeign Hj Hcheck :=
  simpl; rewrite lookup_insert_ne;
  [exact stored | eapply owner_check_foreign; [exact Hforeign|exact Hj|exact Hcheck]].

(** X12. No request made for a user changes a Map of another author:
    whatever the request, a stored Map whose author is not the
    request's userId is stored unchanged afterwards (for createMap, as
    long as the generated id is not the id of that Map). *)
Theorem foreign_map_untouched o :
  (∀ u, caller o = Some u → map_author m ≠ u) →
  ObjectId_new (dom (maps (db w))) ≠ i →
  maps (db (exec o w)) !! i = Some m.
Proof.
  intros Hcaller Hfresh.
  destruct o as [n s e p|e p|u|u d|u|u|u j|u t d c|u j d|u j t|u j t t'
                |u j t p|u j d|u j|u j t|u j]; simpl;
    try (specialize (Hcaller u eq_refl)).
  - unfold registerUser, validate_email, User_findOne, bcrypt_hashM,
      User_create.
    run_op; [|done]. destruct (email_wellFormed e); simpl; [|done].
    by destruct (find _ _).
  - unfold authenticateUser, validate_email, User_findOne.
    run_op; [|done]. destruct (email_wellFormed e); simpl; [|done].
    destruct (find _ _) as [[k v]|]; simpl; [|done].
    by destruct (bcrypt_compare _ _).
  - unfold retrieveUser, User_findById. run_op; [|done].
    destruct (users (db w) !! u); cast_done.
  - unfold updateUser, User_findByIdAndUpdate. run_op; [|done].
    destruct (users (db w) !! u); cast_done.
  - unfold removeUser, User_findById, Pin_deleteMany, PMap_deleteMany,
      User_findByIdAndDelete.
    run_op; [|cast_done]. destruct (users (db w) !! u); simpl; [|cast_done].
    apply survivors_lookup. split; [done|]. simpl.
    by apply bool_decide_eq_false.
  - unfold retrieveUserMaps, PMap_find. run_op; cast_done.
  - unfold retrieveUserMap, PMap_findById, populate_collections_pins.
    run_op; [|cast_done]. destruct (maps (db w) !! j) as [m'|]; simpl; [|cast_done].
    by destruct (negb (map_isPublic m') && _).
  - unfold createMap, PMap_create. run_op; [|done].
    by rewrite lookup_insert_ne.
  - unfold updateMap, PMap_findById, PMap_save. run_op; [|done].
    destruct (maps (db w) !! j) as [m'|] eqn:Hj; simpl; [|cast_done].
    destruct (ObjectId_equals (map_author m') u) eqn:Hcheck; simpl; [|done].
    foreign_insert Hcaller Hj Hcheck.
  - unfold createCollection, PMap_findById, PMap_save. run_op; [|done].
    destruct (maps (db w) !! j) as [m'|] eqn:Hj; simpl; [|cast_done].
    destruct (ObjectId_equals (map_author m') u) eqn:Hcheck; simpl; [|done].
    foreign_insert Hcaller Hj Hcheck.
  - unfold updateCollection, PMap_findById, PMap_save. run_op; [|done].
    destruct (maps (db w) !! j) as [m'|] eqn:Hj; simpl; [|cast_done].
    destruct (ObjectId_equals (map_author m') u) eqn:Hcheck; simpl; [|done].
    destruct (findIndex _ (map_collections m') >? 0); simpl; [done|].
    destruct (js_index _ _); simpl; [|done].
    foreign_insert Hcaller Hj Hcheck.
  - unfold createPin, PMap_findById, Pin_create, PMap_save. run_op; [|done].
    destruct (maps (db w) !! j) as [m'|] eqn:Hj; simpl; [|cast_done].
    destruct (ObjectId_equals (map_author m') u) eqn:Hcheck; simpl; [|done].
    destruct (findIndex _ (map_collections m') <? 0); simpl; [done|].
    destruct (np_coordinates p); simpl; [|done].
    destruct (js_index _ _); simpl; [|done].
    foreign_insert Hcaller Hj Hcheck.
  - unfold updatePin, Pin_findById, Pin_save. run_op; [|done].
    destruct (pins (db w) !! j) as [p|]; simpl; [|cast_done].
    by destruct (negb (ObjectId_equals (pin_author p) u)).
  - unfold removeMap, PMap_findById, Pin_deleteMany, PMap_findByIdAndDelete.
    run_op; [|done].
    destruct (maps (db w) !! j) as [m'|] eqn:Hj; simpl; [|cast_done].
    destruct (ObjectId_equals (map_author m') u) eqn:Hcheck; simpl; [|done].
    rewrite lookup_delete_ne; [done|].
    by eapply owner_check_foreign.
  - unfold removeCollection, PMap_findById, PMap_save, Pin_deleteMany.
    run_op; [|done].
    destruct (maps (db w) !! j) as [m'|] eqn:Hj; simpl; [|cast_done].
    destruct (ObjectId_equals (map_author m') u) eqn:Hcheck; simpl; [|done].
    destruct (findIndex _ (map_collections m') =? -1); simpl; [done|].
    destruct (js_index _ _); simpl; [|done].
    foreign_insert Hcaller Hj Hcheck.
  - unfold removePin, Pin_findOneAndDelete. run_op; [|done].
    destruct (pins (db w) !! j) as [p|]; simpl; [|cast_done].
    rewrite (bool_decide_eq_true_2 (j = j)) by done.
    destruct (bool_decide (pin_author p = u)); simpl; cast_done.
Qed.
End ForeignMaps.

(** X13. The four reading requests (authenticateUser, retrieveUser,
    retrieveUserMaps, retrieveUserMap) leave the store as it was,
    whatever their arguments and whether they succeed or fail. *)
Theorem readers_leave_store `{Platform} o w :
  readsOnly o = true → db (exec o w) = db w.
Proof.
  destruct o as [n s e p|e p|u|u d|u|u|u j|u t d c|u j d|u j t|u j t t'
                |u j t p|u j d|u j|u j t|u j]; simpl; try done; intros _.
  - unfold authenticateUser, validate_email, User_findOne.
    run_op; [|done]. destruct (email_wellFormed e); simpl; [|done].
    destruct (find _ _) as [[k v]|]; simpl; [|done].
    by destruct (bcrypt_compare _ _).
  - unfold retrieveUser, User_findById. run_op; [|done].
    destruct (users (db w) !! u); cast_done.
  - unfold retrieveUserMaps, PMap_find. run_op; cast_done.
  - unfold retrieveUserMap, PMap_findById, populate_collections_pins.
    run_op; [|cast_done]. destruct (maps (db w) !! j) as [m'|]; simpl; [|cast_done].
    by destruct (negb (map_isPublic m') && _).
Qed.

(** ** Collections *)

Lemma firstTitled_findIndex cs t k :
  firstTitled cs t k →
  findIndex (λ col, bool_decide (col_title col = t)) cs = Z.of_nat k.
Proof.
  intros [(col & Hcol & Htitle) Hfirst].
  apply (findIndex_first _ cs k col); [done|by apply bool_decide_eq_true|].
  intros j c Hj Hc. apply bool_decide_eq_false. by eapply Hfirst.
Qed.

Lemma js_index_of_nat {A} (l : list A) (k : nat) :
  js_index l (Z.of_nat k) = l !! k.
Proof.
  unfold js_index. destruct (Z.ltb_spec (Z.of_nat k) 0); [lia|].
  by rewrite Nat2Z.id.
Qed.

Lemma untitled_findIndex (m : PMap) t :
  t ∉ titlesOf m →
  findIndex (λ col, bool_decide (col_title col = t)) (map_collections m) = -1.
Proof.
  intros Hmissing. apply findIndex_none. intros col Hcol.
  apply bool_decide_eq_false. intros Htitle.
  apply Hmissing, titlesOf_elem. by exists col.
Qed.

(** A title the sequence lacks is first held, once appended, at the
    end. *)
Lemma firstTitled_appended (m : PMap) t pins0 :
  t ∉ titlesOf m →
  firstTitled (map_collections m ++ [mkCollection t pins0]) t
              (length (map_collections m)).
Proof.
  intros Hmissing. split.
  - exists (mkCollection t pins0). split; [|done].
    by rewrite lookup_app_r, Nat.sub_diag by lia.
  - intros j c Hj Hc Htitle. rewrite lookup_app_l in Hc by done.
    apply Hmissing, titlesOf_elem. exists c. split; [|done].
    by eapply list_elem_of_lookup_2.
Qed.

(** A title first held at index [k] is still first held there after an
    append. *)
Lemma firstTitled_app cs t k extra :
  firstTitled cs t k → firstTitled (cs ++ extra) t k.
Proof.
  intros [(col & Hcol & Htitle) Hfirst].
  pose proof (lookup_lt_Some _ _ _ Hcol) as Hk. split.
  - exists col. by rewrite lookup_app_l.
  - intros j c Hj Hc. rewrite lookup_app_l in Hc by lia. by eapply Hfirst.
Qed.

Lemma survivors_none_listed (ps : gmap Id Pin) :
  survivors matchesPin (ByIdIn []) ps = ps.
Proof.
  apply map_eq. intros j. apply option_eq. intros p.
  rewrite survivors_lookup. simpl. split; [by intros [? _]|].
  intros Hp. split; [done|]. first [done | apply bool_decide_eq_false, not_elem_of_nil].
Qed.

Lemma delete_appended {A} (l : list A) x : delete (length l) (l ++ [x]) = l.
Proof. induction l as [|a l IH]; simpl; [done|]. by f_equal. Qed.

Lemma delete_app_left {A} (l extra : list A) (k : nat) :
  (k < length l)%nat → delete k (l ++ extra) = delete k l ++ extra.
Proof.
  revert k. induction l as [|a l IH]; intros k Hk; simpl in *; [lia|].
  destruct k as [|k]; [done|]. simpl. f_equal. apply IH. lia.
Qed.

Section OwnedMap.
Context `{Platform}.
Variables (userId mapId : Id) (w : World) (m : PMap).
Hypothesis userId_ok : userId ≠ "".
Hypothesis mapId_ok : mapId ≠ "".
Hypothesis stored : maps (db w) !! mapId = Some m.
Hypothesis owned : map_author m = userId.

Lemma createCollection_run t :
  t ≠ "" →
  createCollection userId mapId t w =
    (Ok (S (length (map_collections m))),
     mkWorld
       (setMaps
          (<[mapId := setCollections (map_collections m ++ [mkCollection t []])
                        m]> (maps (db w)))
          (db w))
       (log w ++ [mkCall MPMap VfindById (ById mapId);
                  mkCall MPMap Vsave (ById mapId)])
       (entropy w)).
Proof.
  intros Ht. unfold createCollection, PMap_findById, PMap_save,
    ObjectId_equals.
  unfold_M. pass_validation. simpl. rewrite stored. simpl.
  rewrite bool_decide_eq_true_2 by done. simpl.
  rewrite length_app, Nat.add_1_r. by rewrite <- app_assoc.
Qed.

Lemma removeCollection_run t k col :
  t ≠ "" → firstTitled (map_collections m) t k →
  map_collections m !! k = Some col →
  removeCollection userId mapId t w =
    let m' := setCollections (delete k (map_collections m)) m in
    (Ok m',
     mkWorld
       (setPins (survivors matchesPin (ByIdIn (col_pins col)) (pins (db w)))
          (setMaps (<[mapId := m']> (maps (db w))) (db w)))
       (log w ++ [mkCall MPMap VfindById (ById mapId);
                  mkCall MPMap Vsave (ById mapId);
                  mkCall MPin VdeleteMany (ByIdIn (col_pins col))])
       (entropy w)).
Proof.
  intros Ht Hfirst Hcol.
  unfold removeCollection, PMap_findById, PMap_save, Pin_deleteMany,
    ObjectId_equals.
  unfold_M. pass_validation. simpl. rewrite stored. simpl.
  rewrite bool_decide_eq_true_2 by done. simpl.
  rewrite (firstTitled_findIndex _ _ _ Hfirst).
  destruct (Z.eqb_spec (Z.of_nat k) (-1)); [lia|].
  rewrite js_index_of_nat, Hcol, Nat2Z.id. simpl.
  by rewrite <- !app_assoc.
Qed.

(** X14. For a Map the caller owns, removeCollection(title) removes the
    first Collection with that title, keeps the others in their order,
    and deletes exactly the Pins that Collection referenced: users and
    every other Pin stay. *)
Theorem removeCollection_cascade t k col :
  t ≠ "" → firstTitled (map_collections m) t k →
  map_collections m !! k = Some col →
  (removeCollection userId mapId t w).1
    = Ok (setCollections (delete k (map_collections m)) m)
  ∧ maps (db (removeCollection userId mapId t w).2) !! mapId
      = Some (setCollections (delete k (map_collections m)) m)
  ∧ (∀ j, j ∈ col_pins col →
          pins (db (removeCollection userId mapId t w).2) !! j = None)
  ∧ (∀ j, j ∉ col_pins col →
          pins (db (removeCollection userId mapId t w).2) !! j
            = pins (db w) !! j)
  ∧ users (db (removeCollection userId mapId t w).2) = users (db w).
Proof.
  intros Ht Hfirst Hcol. rewrite (removeCollection_run t k col) by done.
  cbv zeta. simpl. split; [done|]. split; [apply lookup_insert_eq|].
  split; [|split; [|done]].
  - intros j Hj. apply eq_None_not_Some. intros [p Hp].
    apply survivors_lookup in Hp as [_ Hp]. simpl in Hp.
    by apply bool_decide_eq_false in Hp.
  - intros j Hj. apply option_eq. intros p. rewrite survivors_lookup. simpl.
    rewrite bool_decide_eq_false. split; [by intros [? _]|by intros ?].
Qed.

(** X15. For a Map the caller owns, removeCollection with a title no
    Collection of the Map has fails with LogicError and writes
    nothing. *)
Theorem removeCollection_missing t :
  t ≠ "" → t ∉ titlesOf m →
  isLogicError (removeCollection userId mapId t w).1
  ∧ db (removeCollection userId mapId t w).2 = db w.
Proof.
  intros Ht Hmissing.
  unfold removeCollection, PMap_findById, PMap_save, Pin_deleteMany,
    ObjectId_equals.
  unfold_M. pass_validation. simpl. rewrite stored. simpl.
  rewrite bool_decide_eq_true_2 by done. simpl.
  by rewrite untitled_findIndex.
Qed.

(** X16. For a Map the caller owns and a title the Map does not have
    yet: createCollection returns the new number of Collections, and a
    removeCollection of the same title right after puts the Maps and the
    Pins of the store back as they were. *)
Theorem createCollection_then_removeCollection t :
  t ≠ "" → t ∉ titlesOf m →
  (createCollection userId mapId t w).1 = Ok (S (length (map_collections m)))
  ∧ maps (db (removeCollection userId mapId t
                (createCollection userId mapId t w).2).2) = maps (db w)
  ∧ pins (db (removeCollection userId mapId t
                (createCollection userId mapId t w).2).2) = pins (db w).
Proof.
  intros Ht Hmissing. rewrite createCollection_run by done. simpl.
  split; [done|].
  unfold removeCollection, PMap_findById, PMap_save, Pin_deleteMany,
    ObjectId_equals.
  unfold_M. pass_validation. simpl. rewrite lookup_insert_eq. simpl.
  rewrite bool_decide_eq_true_2 by done. simpl.
  rewrite (firstTitled_findIndex _ _ _ (firstTitled_appended m t [] Hmissing)).
  destruct (Z.eqb_spec (Z.of_nat (length (map_collections m))) (-1)); [lia|].
  rewrite js_index_of_nat, Nat2Z.id.
  rewrite lookup_app_r, Nat.sub_diag by lia. simpl.
  split; [|apply survivors_none_listed].
  rewrite insert_insert_eq.
  rewrite delete_appended.
  assert (setCollections (map_collections m)
            (setCollections (map_collections m ++ [mkCollection t []]) m) = m)
    as -> by by destruct m.
  by apply insert_id.
Qed.

(** X17. For a Map the caller owns that already has a Collection titled
    [t], first at index [k]: createCollection(t) followed by
    removeCollection(t) removes the Collection that was there, with
    the Pins it referenced, and leaves the new, empty one at the end. *)
Theorem createCollection_duplicate_then_removeCollection t k col :
  t ≠ "" → firstTitled (map_collections m) t k →
  map_collections m !! k = Some col →
  map_collections
    <$> maps (db (removeCollection userId mapId t
                    (createCollection userId mapId t w).2).2) !! mapId
    = Some (delete k (map_collections m) ++ [mkCollection t []])
  ∧ pins (db (removeCollection userId mapId t
                (createCollection userId mapId t w).2).2)
      = survivors matchesPin (ByIdIn (col_pins col)) (pins (db w)).
Proof.
  intros Ht Hfirst Hcol. rewrite createCollection_run by done. simpl.
  pose proof (lookup_lt_Some _ _ _ Hcol) as Hk.
  unfold removeCollection, PMap_findById, PMap_save, Pin_deleteMany,
    ObjectId_equals.
  unfold_M. pass_validation. simpl. rewrite lookup_insert_eq. simpl.
  rewrite bool_decide_eq_true_2 by done. simpl.
  rewrite (firstTitled_findIndex _ _ _
             (firstTitled_app _ _ _ [mkCollection t []] Hfirst)).
  destruct (Z.eqb_spec (Z.of_nat k) (-1)); [lia|].
  rewrite js_index_of_nat, Nat2Z.id, lookup_app_l, Hcol by done. simpl.
  rewrite lookup_insert_eq. simpl. split; [|done].
  by rewrite delete_app_left.
Qed.
End OwnedMap.

(** ** Pins *)

Lemma firstTitled_retitled cs t k col pins' :
  firstTitled cs t k → cs !! k = Some col →
  firstTitled (<[k := mkCollection (col_title col) pins']> cs) t k.
Proof.
  intros [(c & Hc & Htitle) Hfirst] Hcol.
  assert (c = col) as -> by congruence.
  pose proof (lookup_lt_Some _ _ _ Hcol) as Hk. split.
  - eexists. by rewrite list_lookup_insert_eq.
  - intros j c' Hj Hc'. rewrite list_lookup_insert_ne in Hc' by lia.
    by eapply Hfirst.
Qed.

Section OwnedMapPins.
Context `{Platform}.
Variables (userId mapId : Id) (w : World) (m : PMap).
Variables (t : string) (k : nat) (col : Collection).
Hypothesis userId_ok : userId ≠ "".
Hypothesis mapId_ok : mapId ≠ "".
Hypothesis t_ok : t ≠ "".
Hypothesis stored : maps (db w) !! mapId = Some m.
Hypothesis owned : map_author m = userId.

(** The Map after a Pin id has been pushed to its Collection at index
    [k]. *)
Lemma createPin_run newPin c :
  firstTitled (map_collections m) t k → map_collections m !! k = Some col →
  np_coordinates newPin = Some c →
  createPin userId mapId t newPin w =
    let id := ObjectId_new (dom (pins (db w))) in
    (Ok id,
     mkWorld
       (setMaps
          (<[mapId :=
               setCollections
                 (<[k := mkCollection (col_title col) (col_pins col ++ [id])]>
                    (map_collections m)) m]> (maps (db w)))
          (setPins (<[id := pinOf userId mapId (np_data newPin) c]>
                      (pins (db w))) (db w)))
       (log w ++ [mkCall MPMap VfindById (ById mapId);
                  mkCall MPin Vcreate (ById id);
                  mkCall MPMap Vsave (ById mapId)])
       (entropy w)).
Proof.
  intros Hfirst Hcol Hc.
  unfold createPin, PMap_findById, Pin_create, PMap_save, ObjectId_equals.
  unfold_M. pass_validation. simpl. rewrite stored. simpl.
  rewrite bool_decide_eq_true_2 by done. simpl.
  rewrite (firstTitled_findIndex _ _ _ Hfirst).
  destruct (Z.ltb_spec (Z.of_nat k) 0); [lia|]. simpl.
  rewrite Hc. simpl. rewrite js_index_of_nat, Hcol, Nat2Z.id. simpl.
  by rewrite <- !app_assoc.
Qed.

(** X18. For a Map the caller owns, a title first held at index [k], a
    payload with coordinates and an ObjectId generator returning an
    unused id: createPin stores a Pin with the caller as author, the
    Map as parent and the payload's fields and coordinates, appends its
    id at the end of the pin sequence of the Collection at index [k],
    leaves the other Collections as they were, and keeps every Pin
    stored before. *)
Theorem createPin_links newPin c :
  firstTitled (map_collections m) t k → map_collections m !! k = Some col →
  np_coordinates newPin = Some c →
  pins (db w) !! ObjectId_new (dom (pins (db w))) = None →
  ∃ id w' m',
    createPin userId mapId t newPin w = (Ok id, w')
    ∧ pins (db w') !! id = Some (pinOf userId mapId (np_data newPin) c)
    ∧ (∀ j q, pins (db w) !! j = Some q → pins (db w') !! j = Some q)
    ∧ maps (db w') !! mapId = Some m'
    ∧ map_collections m' !! k
        = Some (mkCollection (col_title col) (col_pins col ++ [id]))
    ∧ (∀ j, j ≠ k → map_collections m' !! j = map_collections m !! j)
    ∧ length (map_collections m') = length (map_collections m)
    ∧ users (db w') = users (db w).
Proof.
  intros Hfirst Hcol Hc Hfresh. rewrite (createPin_run newPin c) by done.
  cbv zeta. eexists _, _, _. split; [reflexivity|]. simpl.
  pose proof (lookup_lt_Some _ _ _ Hcol) as Hk.
  split; [apply lookup_insert_eq|]. split.
  { intros j q Hj. rewrite lookup_insert_ne; [done|]. congruence. }
  split; [apply lookup_insert_eq|]. simpl.
  split; [by apply list_lookup_insert_eq|].
  split; [|by rewrite length_insert].
  intros j Hj. by rewrite list_lookup_insert_ne.
Qed.

(** X19. Under the same conditions (the id need not be unused),
    retrieveUserMap by the owner right after createPin shows, in the
    Collection at index [k], the new Pin last, under the id createPin
    returned and with the fields and coordinates of the payload. *)
Theorem createPin_then_retrieveUserMap newPin c :
  firstTitled (map_collections m) t k → map_collections m !! k = Some col →
  np_coordinates newPin = Some c →
  ∃ id w' view before,
    createPin userId mapId t newPin w = (Ok id, w')
    ∧ (retrieveUserMap userId mapId w').1 = Ok view
    ∧ mv_collections view !! k
        = Some (mkCollectionView (col_title col)
                  (before ++ [(id, pinOf userId mapId (np_data newPin) c)])).
Proof.
  intros Hfirst Hcol Hc. rewrite (createPin_run newPin c) by done.
  cbv zeta. eexists _, _, _, _. split; [reflexivity|].
  pose proof (lookup_lt_Some _ _ _ Hcol) as Hk.
  erewrite retrieveUserMap_found; [|done|done|simpl; apply lookup_insert_eq].
  simpl. rewrite bool_decide_eq_true_2 by done. rewrite andb_false_r.
  split; [reflexivity|]. simpl.
  rewrite list_lookup_fmap, list_lookup_insert_eq by done. simpl.
  unfold resolvePins. simpl. rewrite omap_app. simpl.
  by rewrite lookup_insert_eq.
Qed.

(** X20. For a Map the caller owns, createPin fails with LogicError and
    stores nothing, no Pin either, when no Collection of the Map has the
    title, and when the payload has no coordinates. *)
Theorem createPin_rejects newPin :
  t ∉ titlesOf m ∨ np_coordinates newPin = None →
  isLogicError (createPin userId mapId t newPin w).1
  ∧ db (createPin userId mapId t newPin w).2 = db w.
Proof.
  intros Hbad.
  unfold createPin, PMap_findById, Pin_create, PMap_save, ObjectId_equals.
  unfold_M. pass_validation. simpl. rewrite stored. simpl.
  rewrite bool_decide_eq_true_2 by done. simpl.
  destruct (findIndex _ (map_collections m) <? 0) eqn:Hidx; simpl; [done|].
  destruct Hbad as [Hmissing | ->]; [|done].
  rewrite untitled_findIndex in Hidx by done. done.
Qed.

(** X21. The Pin of a Collection that removeCollection removes is gone
    for updatePin: after createPin into the Collection titled [t] and
    removeCollection of [t], updatePin on the id createPin returned
    fails with LogicError. *)
Theorem createPin_removeCollection_updatePin newPin c data :
  firstTitled (map_collections m) t k → map_collections m !! k = Some col →
  np_coordinates newPin = Some c →
  ObjectId_new (dom (pins (db w))) ≠ "" →
  ∃ id w',
    createPin userId mapId t newPin w = (Ok id, w')
    ∧ pins (db (removeCollection userId mapId t w').2) !! id = None
    ∧ isLogicError
        (updatePin userId id data (removeCollection userId mapId t w').2).1.
Proof.
  intros Hfirst Hcol Hc Hnonempty. rewrite (createPin_run newPin c) by done.
  cbv zeta. eexists _, _. split; [reflexivity|].
  pose proof (lookup_lt_Some _ _ _ Hcol) as Hk.
  set (id := ObjectId_new (dom (pins (db w)))) in *.
  set (m1 := setCollections
               (<[k := mkCollection (col_title col) (col_pins col ++ [id])]>
                  (map_collections m)) m).
  set (w1 := mkWorld _ _ _).
  assert (maps (db w1) !! mapId = Some m1) as Hstored1
    by apply lookup_insert_eq.
  assert (firstTitled (map_collections m1) t k) as Hfirst1
    by by apply firstTitled_retitled.
  assert (map_collections m1 !! k
          = Some (mkCollection (col_title col) (col_pins col ++ [id])))
    as Hcol1 by by apply list_lookup_insert_eq.
  rewrite (removeCollection_run userId mapId w1 m1 userId_ok mapId_ok
             Hstored1 owned t k _ t_ok Hfirst1 Hcol1).
  cbv zeta. subst w1 m1 id. simpl.
  assert (survivors matchesPin
            (ByIdIn (col_pins col ++ [ObjectId_new (dom (pins (db w)))]))
            (<[ObjectId_new (dom (pins (db w))) :=
                 pinOf userId mapId (np_data newPin) c]> (pins (db w)))
            !! ObjectId_new (dom (pins (db w))) = None) as Hgone.
  { apply eq_None_not_Some. intros [p Hp].
    apply survivors_lookup in Hp as [_ Hp]. simpl in Hp.
    apply bool_decide_eq_false in Hp. apply Hp.
    apply elem_of_app. right. by apply list_elem_of_singleton. }
  split; [exact Hgone|].
  unfold updatePin, Pin_findById, Pin_save. unfold_M.
  pass_validation. simpl. rewrite Hgone. simpl.
  by rewrite ObjectId_new_isValid.
Qed.
End OwnedMapPins.

(** X22. updatePin by the author of a stored Pin overwrites all seven
    text fields with what the payload holds, so a field the payload
    omits becomes undefined; the Pin keeps its Map, its author and its
    coordinates, and no Map and no other Pin changes.  By anyone else
    it fails with LogicError and the Pin stays as it was. *)
Theorem updatePin_overwrites `{Platform} userId pinId data w p :
  userId ≠ "" → pinId ≠ "" → pins (db w) !! pinId = Some p →
  (pin_author p = userId →
     ∃ p',
       (updatePin userId pinId data w).1 = Ok p'
       ∧ pins (db (updatePin userId pinId data w).2) !! pinId = Some p'
       ∧ pin_title p' = pd_title data
       ∧ pin_description p' = pd_description data
       ∧ pin_urlImage p' = pd_urlImage data
       ∧ pin_bestTimeOfYear p' = pd_bestTimeOfYear data
       ∧ pin_bestTimeOfDay p' = pd_bestTimeOfDay data
       ∧ pin_photographyTips p' = pd_photographyTips data
       ∧ pin_travelInformation p' = pd_travelInformation data
       ∧ pin_mapId p' = pin_mapId p
       ∧ pin_author p' = pin_author p
       ∧ pin_coordinates p' = pin_coordinates p
       ∧ (∀ j, j ≠ pinId →
               pins (db (updatePin userId pinId data w).2) !! j
                 = pins (db w) !! j)
       ∧ maps (db (updatePin userId pinId data w).2) = maps (db w))
  ∧ (pin_author p ≠ userId →
     isLogicError (updatePin userId pinId data w).1
     ∧ db (updatePin userId pinId data w).2 = db w).
Proof.
  intros Hu Hi Hp.
  unfold updatePin, Pin_findById, Pin_save, ObjectId_equals. unfold_M.
  pass_validation. simpl. rewrite Hp. simpl. split.
  - intros Hauthor. rewrite bool_decide_eq_true_2 by done. simpl.
    exists (overwritePin data p). split; [done|].
    split; [apply lookup_insert_eq|]. repeat split.
    intros j Hj. by rewrite lookup_insert_ne.
  - intros Hother. by rewrite bool_decide_eq_false_2.
Qed.

Lemma removeMap_run `{Platform} userId mapId w m :
  userId ≠ "" → mapId ≠ "" →
  maps (db w) !! mapId = Some m → map_author m = userId →
  removeMap userId mapId w =
    (Ok (Some m),
     mkWorld
       (setMaps (delete mapId (maps (db w)))
          (setPins (survivors matchesPin (ByMapId mapId) (pins (db w)))
                   (db w)))
       (log w ++ [mkCall MPMap VfindById (ById mapId);
                  mkCall MPin VdeleteMany (ByMapId mapId);
                  mkCall MPMap VfindByIdAndDelete (ById mapId)])
       (entropy w)).
Proof.
  intros Hu Hi Hm Howned.
  unfold removeMap, PMap_findById, Pin_deleteMany, PMap_findByIdAndDelete,
    ObjectId_equals.
  unfold_M. pass_validation. simpl. rewrite Hm. simpl.
  rewrite bool_decide_eq_true_2 by done. simpl.
  by rewrite <- !app_assoc, Hm.
Qed.

(** X23. removeMap by the owner hands back the Map and deletes first
    the Pins whose mapId is that Map, then the Map: afterwards the
    stored Pins are exactly those of other Maps, every other Map is
    kept, users are not touched, and a retrieveUserMap of the id fails:
    with LogicError when the id casts to an ObjectId, as the ids the
    driver generates do, and with the CastError of the query
    otherwise. *)
Theorem removeMap_cascade `{Platform} userId mapId w m :
  userId ≠ "" → mapId ≠ "" →
  maps (db w) !! mapId = Some m → map_author m = userId →
  (removeMap userId mapId w).1 = Ok (Some m)
  ∧ maps (db (removeMap userId mapId w).2) = delete mapId (maps (db w))
  ∧ (∀ j p, pins (db (removeMap userId mapId w).2) !! j = Some p
            ↔ pins (db w) !! j = Some p ∧ pin_mapId p ≠ mapId)
  ∧ users (db (removeMap userId mapId w).2) = users (db w)
  ∧ log (removeMap userId mapId w).2
      = log w ++ [mkCall MPMap VfindById (ById mapId);
                  mkCall MPin VdeleteMany (ByMapId mapId);
                  mkCall MPMap VfindByIdAndDelete (ById mapId)]
  ∧ (ObjectId_isValid mapId = true →
     isLogicError
       (retrieveUserMap userId mapId (removeMap userId mapId w).2).1)
  ∧ (retrieveUserMap userId mapId (removeMap userId mapId w).2).1
    = if ObjectId_isValid mapId
      then Err (LogicError ("no maps for user with id " +:+ mapId))
      else Err (CastError mapId).
Proof.
  intros Hu Hi Hm Howned. rewrite (removeMap_run userId mapId w m) by done.
  simpl. split; [done|]. split; [done|].
  split; [|split; [done|split; [done|split]]].
  - intros j p. rewrite survivors_lookup. simpl.
    by rewrite bool_decide_eq_false.
  - intros Hvalid. apply retrieveUserMap_missing; [done|done| |done]. simpl.
    apply lookup_delete_eq.
  - apply retrieveUserMap_absent; [done|done|]. simpl.
    apply lookup_delete_eq.
Qed.

(** X24. removePin never writes a Map.  So when the author removes a
    Pin that a Collection references, the reference stays in the stored
    Map although the Pin is gone; retrieveUserMap then leaves that id
    out of every Collection it returns. *)
Theorem removePin_dangling `{Platform} userId pinId w p :
  userId ≠ "" → pinId ≠ "" →
  pins (db w) !! pinId = Some p → pin_author p = userId →
  maps (db (removePin userId pinId w).2) = maps (db w)
  ∧ pins (db (removePin userId pinId w).2) !! pinId = None
  ∧ ∀ requester mapId view cv,
      (retrieveUserMap requester mapId (removePin userId pinId w).2).1
        = Ok view →
      cv ∈ mv_collections view → pinId ∉ (fst <$> cv_pins cv).
Proof.
  intros Hu Hi Hp Hauthor.
  rewrite (removePin_run userId pinId Hu Hi w), Hp. simpl.
  rewrite bool_decide_eq_true_2 by done. simpl.
  split; [done|]. split; [apply lookup_delete_eq|].
  intros requester mapId view cv Hview Hcv Hin.
  unfold retrieveUserMap, PMap_findById, populate_collections_pins in Hview.
  unfold_M. cbv beta in Hview.
  destruct (validate_arguments_cases [str "userId" requester; str "mapId" mapId]
              {| db := setPins (delete pinId (pins (db w))) (db w);
                 log := log w ++ [mkCall MPin VfindOneAndDelete
                                    (ByIdAndAuthor pinId userId)];
                 entropy := entropy w |}) as [Hv | [n Hv]];
    rewrite Hv in Hview; simpl in Hview; [|done].
  destruct (maps (db w) !! mapId) as [m|]; simpl in Hview;
    [|by destruct (ObjectId_isValid mapId)].
  destruct (negb (map_isPublic m) && _); simpl in Hview; [done|].
  injection Hview as <-. simpl in Hcv.
  apply list_elem_of_fmap in Hcv as (col & -> & _). simpl in Hin.
  apply list_elem_of_fmap in Hin as ([j q] & Hj & Hjq). simpl in Hj. subst j.
  apply list_elem_of_omap in Hjq as (j & _ & Hres).
  destruct (decide (j = pinId)) as [->|Hne].
  - by rewrite lookup_delete_eq in Hres.
  - destruct (delete pinId (pins (db w)) !! j); simpl in Hres; [|done].
    injection Hres as -> _. done.
Qed.

Lemma updatedMap_author d m : map_author (updatedMap d m) = map_author m.
Proof.
  unfold updatedMap, assignIfTruthy.
  destruct (md_title d) as [t|], (md_description d) as [de|],
    (md_coverImage d) as [c|];
    repeat match goal with |- context [js_truthy ?v] => destruct (js_truthy v) end;
    reflexivity.
Qed.

Lemma updatedMap_idempotent d m : updatedMap d (updatedMap d m) = updatedMap d m.
Proof.
  unfold updatedMap, assignIfTruthy. destruct m.
  destruct (md_title d) as [t|], (md_description d) as [de|],
    (md_coverImage d) as [c|];
    repeat match goal with |- context [js_truthy ?v] => destruct (js_truthy v) end;
    reflexivity.
Qed.

(** X25. For a Map the caller owns, applying the same updateMap payload
    a second time changes nothing: both calls return the same Map, and
    the Maps of the store after the second call are those after the
    first. *)
Theorem updateMap_idempotent `{Platform} userId mapId data w m :
  userId ≠ "" → mapId ≠ "" →
  maps (db w) !! mapId = Some m → map_author m = userId →
  (updateMap userId mapId data (updateMap userId mapId data w).2).1
    = (updateMap userId mapId data w).1
  ∧ maps (db (updateMap userId mapId data
                (updateMap userId mapId data w).2).2)
    = maps (db (updateMap userId mapId data w).2).
Proof.
  intros Hu Hi Hm Howned.
  rewrite (updateMap_run userId mapId data w m Hu Hi Hm).
  rewrite bool_decide_eq_true_2 by done.
  rewrite (updateMap_run userId mapId data _ (updatedMap data m) Hu Hi)
    by (simpl; apply lookup_insert_eq).
  rewrite bool_decide_eq_true_2 by by rewrite updatedMap_author.
  simpl. rewrite updatedMap_idempotent. split; [done|].
  apply insert_insert_eq.
Qed.

(** ** Pins never lose their Map *)

Lemma pinsBelong_same (s s' : Store) :
  maps s' = maps s → pins s' = pins s → pinsBelong s → pinsBelong s'.
Proof. unfold pinsBelong. by intros -> ->. Qed.

(** Replacing a Map by one of the same author, and dropping Pins. *)
Lemma pinsBelong_resave (s : Store) i m m' (ps : gmap Id Pin) :
  pinsBelong s → maps s !! i = Some m → map_author m' = map_author m →
  (∀ j p, ps !! j = Some p → pins s !! j = Some p) →
  pinsBelong (mkStore (users s) (<[i := m']> (maps s)) ps).
Proof.
  intros Hs Hm Hauthor Hsub j p Hp. simpl in *.
  destruct (Hs j p (Hsub j p Hp)) as (m0 & Hm0 & Ha).
  destruct (decide (pin_mapId p = i)) as [Hi|Hi].
  - exists m'. rewrite Hi, lookup_insert_eq. split; [done|]. congruence.
  - exists m0. by rewrite lookup_insert_ne.
Qed.

Section PinsBelong.
Context `{Platform}.
Variable w : World.
Hypothesis belong : pinsBelong (db w).
Hypothesis freshMap : maps (db w) !! ObjectId_new (dom (maps (db w))) = None.

Lemma removeUser_pinsBelong u : pinsBelong (db (removeUser u w).2).
Proof.
  unfold removeUser, User_findById, Pin_deleteMany, PMap_deleteMany,
    User_findByIdAndDelete.
  run_op; [|cast_done]. destruct (users (db w) !! u); simpl; [|cast_done].
  intros j p Hp. simpl in *. apply survivors_lookup in Hp as [Hp Hkeep].
  destruct (belong j p Hp) as (m & Hm & Ha). exists m. split; [|done].
  apply survivors_lookup. split; [done|]. simpl in *.
  apply bool_decide_eq_false. apply bool_decide_eq_false in Hkeep. congruence.
Qed.

Lemma createMap_pinsBelong u t d c : pinsBelong (db (createMap u t d c w).2).
Proof.
  unfold createMap, PMap_create. run_op; [|done].
  intros j p Hp. simpl in *. destruct (belong j p Hp) as (m & Hm & Ha).
  exists m. split; [|done]. rewrite lookup_insert_ne; [done|]. congruence.
Qed.

Lemma updateMap_pinsBelong u i d : pinsBelong (db (updateMap u i d w).2).
Proof.
  unfold updateMap, PMap_findById, PMap_save. run_op; [|done].
  destruct (maps (db w) !! i) as [m|] eqn:Hm; simpl; [|cast_done].
  destruct (negb (ObjectId_equals (map_author m) u)); simpl; [done|].
  apply (pinsBelong_resave (db w) i m); [done|done| |done].
  apply (updatedMap_author d m).
Qed.

Lemma createCollection_pinsBelong u i t :
  pinsBelong (db (createCollection u i t w).2).
Proof.
  unfold createCollection, PMap_findById, PMap_save. run_op; [|done].
  destruct (maps (db w) !! i) as [m|] eqn:Hm; simpl; [|cast_done].
  destruct (negb (ObjectId_equals (map_author m) u)); simpl; [done|].
  by apply (pinsBelong_resave (db w) i m).
Qed.

Lemma updateCollection_pinsBelong u i t t' :
  pinsBelong (db (updateCollection u i t t' w).2).
Proof.
  unfold updateCollection, PMap_findById, PMap_save. run_op; [|done].
  destruct (maps (db w) !! i) as [m|] eqn:Hm; simpl; [|cast_done].
  destruct (negb (ObjectId_equals (map_author m) u)); simpl; [done|].
  destruct (findIndex _ (map_collections m) >? 0); simpl; [done|].
  destruct (js_index _ _); simpl; [|done].
  by apply (pinsBelong_resave (db w) i m).
Qed.

Lemma createPin_pinsBelong u i t p : pinsBelong (db (createPin u i t p w).2).
Proof.
  unfold createPin, PMap_findById, Pin_create, PMap_save, ObjectId_equals.
  run_op; [|done].
  destruct (maps (db w) !! i) as [m|] eqn:Hm; simpl; [|cast_done].
  destruct (bool_decide_reflect (map_author m = u)) as [Hu|]; simpl; [|done].
  destruct (Z.ltb_spec (findIndex (λ col, bool_decide (col_title col = t))
                          (map_collections m)) 0) as [Hneg|Hpos];
    simpl; [done|].
  destruct (np_coordinates p); simpl; [|done].
  destruct (findIndex_js_index (λ col, bool_decide (col_title col = t))
              (map_collections m)) as (col & -> & _); [lia|]. simpl.
  intros j q Hq. simpl in *.
  destruct (decide (ObjectId_new (dom (pins (db w))) = j)) as [<-|Hne].
  - rewrite lookup_insert_eq in Hq. injection Hq as <-. simpl.
    eexists. by rewrite lookup_insert_eq.
  - rewrite lookup_insert_ne in Hq by done.
    destruct (belong j q Hq) as (m0 & Hm0 & Ha).
    destruct (decide (pin_mapId q = i)) as [Hi|Hi].
    + eexists. rewrite Hi, lookup_insert_eq. split; [done|]. simpl. congruence.
    + exists m0. by rewrite lookup_insert_ne.
Qed.

Lemma updatePin_pinsBelong u i d : pinsBelong (db (updatePin u i d w).2).
Proof.
  unfold updatePin, Pin_findById, Pin_save. run_op; [|done].
  destruct (pins (db w) !! i) as [p|] eqn:Hp; simpl; [|cast_done].
  destruct (negb (ObjectId_equals (pin_author p) u)); simpl; [done|].
  intros j q Hq. simpl in *.
  destruct (decide (i = j)) as [<-|Hne].
  - rewrite lookup_insert_eq in Hq. injection Hq as <-. simpl.
    by apply (belong i p).
  - rewrite lookup_insert_ne in Hq by done. by apply (belong j q).
Qed.

Lemma removeMap_pinsBelong u i : pinsBelong (db (removeMap u i w).2).
Proof.
  unfold removeMap, PMap_findById, Pin_deleteMany, PMap_findByIdAndDelete.
  run_op; [|done].
  destruct (maps (db w) !! i) as [m|] eqn:Hm; simpl; [|cast_done].
  destruct (negb (ObjectId_equals (map_author m) u)); simpl; [done|].
  intros j p Hp. simpl in *. apply survivors_lookup in Hp as [Hp Hkeep].
  simpl in Hkeep. apply bool_decide_eq_false in Hkeep.
  destruct (belong j p Hp) as (m0 & Hm0 & Ha). exists m0.
  by rewrite lookup_delete_ne.
Qed.

Lemma removeCollection_pinsBelong u i t :
  pinsBelong (db (removeCollection u i t w).2).
Proof.
  unfold removeCollection, PMap_findById, PMap_save, Pin_deleteMany.
  run_op; [|done].
  destruct (maps (db w) !! i) as [m|] eqn:Hm; simpl; [|cast_done].
  destruct (negb (ObjectId_equals (map_author m) u)); simpl; [done|].
  destruct (findIndex _ (map_collections m) =? -1); simpl; [done|].
  destruct (js_index _ _); simpl; [|done].
  apply (pinsBelong_resave (db w) i m); [done|done|done|].
  intros j p Hp. by apply survivors_lookup in Hp as [Hp _].
Qed.

Lemma removePin_pinsBelong u i : pinsBelong (db (removePin u i w).2).
Proof.
  unfold removePin, Pin_findOneAndDelete. run_op; [|done].
  destruct (pins (db w) !! i) as [p|]; simpl; [|cast_done].
  rewrite (bool_decide_eq_true_2 (i = i)) by done.
  destruct (bool_decide (pin_author p = u)); simpl; [|cast_done].
  intros j q Hq. simpl in *.
  apply lookup_delete_Some in Hq as [_ Hq]. by apply (belong j q).
Qed.

(** X26. If every stored Pin belongs to a stored Map of the same
    author, it is still so after any request (for createMap, provided
    the generated id is unused): no operation leaves a Pin without its
    Map, or in a Map of another author. *)
Theorem exec_pinsBelong o : pinsBelong (db (exec o w)).
Proof.
  destruct o as [n s e p|e p|u|u d|u|u|u j|u t d c|u j d|u j t|u j t t'
                |u j t p|u j d|u j|u j t|u j]; simpl.
  - unfold registerUser, validate_email, User_findOne, bcrypt_hashM,
      User_create.
    run_op; [|done]. destruct (email_wellFormed e); simpl; [|done].
    by destruct (find _ _).
  - unfold authenticateUser, validate_email, User_findOne.
    run_op; [|done]. destruct (email_wellFormed e); simpl; [|done].
    destruct (find _ _) as [[k v]|]; simpl; [|done].
    by destruct (bcrypt_compare _ _).
  - unfold retrieveUser, User_findById. run_op; [|done].
    destruct (users (db w) !! u); cast_done.
  - unfold updateUser, User_findByIdAndUpdate. run_op; [|done].
    destruct (users (db w) !! u); cast_done.
  - apply removeUser_pinsBelong.
  - unfold retrieveUserMaps, PMap_find. run_op; cast_done.
  - unfold retrieveUserMap, PMap_findById, populate_collections_pins.
    run_op; [|cast_done]. destruct (maps (db w) !! j) as [m'|]; simpl; [|cast_done].
    by destruct (negb (map_isPublic m') && _).
  - apply createMap_pinsBelong.
  - apply updateMap_pinsBelong.
  - apply createCollection_pinsBelong.
  - apply updateCollection_pinsBelong.
  - apply createPin_pinsBelong.
  - apply updatePin_pinsBelong.
  - apply removeMap_pinsBelong.
  - apply removeCollection_pinsBelong.
  - apply removePin_pinsBelong.
Qed.
End PinsBelong.

(** ** These theorems at work on the demo world *)

Section DemoExtras.
#[local] Existing Instance demoPlatform.

Lemma demo_firstTitled_Trips : firstTitled (map_collections demoMap1) "Trips" 0.
Proof.
  split; [by eexists|]. intros j c Hj. lia.
Qed.

Lemma demo_firstTitled_Food : firstTitled (map_collections demoMap1) "Food" 1.
Proof.
  split; [by eexists|]. intros [|j] c Hj Hc; [|lia]. by injection Hc as <-.
Qed.

Lemma demoWorld_pinsBelong : pinsBelong (db demoWorld).
Proof.
  intros j p Hp. simpl in Hp. apply lookup_singleton_Some in Hp as [_ <-].
  by exists demoMap1.
Qed.

Lemma demoWorld_users i u :
  users (db demoWorld) !! i = Some u → i = "u1" ∧ u = ana.
Proof. intros Hu. simpl in Hu. by apply lookup_singleton_Some in Hu as [<- <-]. Qed.

Lemma validation_before_store_witness :
  @exec demoPlatform (OpCreateMap "" "Coast" "" "") demoWorld = demoWorld.
Proof.
  by apply (@validation_before_store demoPlatform
              (OpCreateMap "" "Coast" "" "") demoWorld "userId").
Defined.


Lemma failure_leaves_store_witness :
  db (@exec demoPlatform (OpUpdateMap "u2" "m1" demoMapData) demoWorld)
  = db demoWorld.
Proof.
  by apply (@failure_leaves_store demoPlatform
              (OpUpdateMap "u2" "m1" demoMapData) demoWorld
              (LogicError "map m1 is not from user u2")).
Defined.

Lemma authenticateUser_rejects_witness :
  isLogicError (@authenticateUser demoPlatform "ana@mail.com" "wrong"
                  demoWorld).1
  ∧ isLogicError (@authenticateUser demoPlatform "eva@mail.com" "123"
                    demoWorld).1.
Proof.
  split.
  - apply (@authenticateUser_rejects demoPlatform); [done|done|done|].
    by intros i u [_ ->]%demoWorld_users _.
  - apply (@authenticateUser_rejects demoPlatform); [done|done|done|].
    by intros i u [_ ->]%demoWorld_users Hmail.
Defined.

Lemma authenticateUser_accepts_witness :
  (@authenticateUser demoPlatform "ana@mail.com" "123" demoWorld).1 = Ok "u1".
Proof.
  apply (@authenticateUser_accepts demoPlatform _ _ _ "u1" ana);
    [done|done|done|done|done| |done].
  by intros j v [-> _]%demoWorld_users _.
Defined.

Lemma registerUser_duplicate_witness :
  isLogicError (@registerUser demoPlatform "Ana" "Rey" "ana@mail.com" "secret"
                  demoWorld).1.
Proof.
  by apply (@registerUser_duplicate demoPlatform "Ana" "Rey" "ana@mail.com"
              "secret" demoWorld "u1" ana).
Defined.

Lemma registerUser_adds_one_witness :
  ∃ id w',
    @registerUser demoPlatform "Eva" "Gil" "eva@mail.com" "secret" demoWorld
      = (Ok id, w')
    ∧ users (db w') !! "u1" = Some ana.
Proof.
  destruct (@registerUser_adds_one demoPlatform "Eva" "Gil" "eva@mail.com"
              "secret" demoWorld) as (id & w' & Hrun & _ & Hkeep & _).
  - by repeat split.
  - by intros i u [_ ->]%demoWorld_users.
  - reflexivity.
  - exists id, w'. split; [done|]. by apply Hkeep.
Defined.


Lemma updateUser_missing_witness :
  (updateUser "u9" demoUserData demoWorld).1
  = Err (LogicError "user with id u9 doesn't exists").
Proof.
  by destruct (updateUser_missing "u9" demoUserData demoWorld) as [Hfails _].
Defined.

Lemma removeUser_frame_witness :
  (retrieveUser "u1" (removeUser "u1" demoWorld).2).1
  = Err (LogicError "user with id u1 doesn't exists")
  ∧ maps (db (removeUser "u1" demoWorld).2) !! "m1" = None.
Proof.
  destruct (removeUser_frame "u1" demoWorld ana)
    as (_ & Hmaps & _ & _ & Hgone); [done|reflexivity|].
  split; [exact Hgone|].
  destruct (maps (db (removeUser "u1" demoWorld).2) !! "m1") as [m|] eqn:Hm;
    [|done].
  apply Hmaps in Hm as [[= <-] Hauthor]. by destruct Hauthor.
Defined.


Lemma foreign_map_untouched_witness :
  maps (db (@exec demoPlatform (OpRemoveMap "u2" "m1") demoWorld)) !! "m1"
    = Some demoMap1
  ∧ maps (db (@exec demoPlatform (OpCreateMap "u2" "Hills" "" "") demoWorld))
      !! "m1" = Some demoMap1.
Proof.
  split.
  - apply (@foreign_map_untouched demoPlatform demoWorld "m1" demoMap1);
      [reflexivity| |done].
    by intros u [= <-].
  - apply (@foreign_map_untouched demoPlatform demoWorld "m1" demoMap1);
      [reflexivity| |done].
    by intros u [= <-].
Defined.

Lemma readers_leave_store_witness :
  db (@exec demoPlatform (OpRetrieveUserMap "u1" "m1") demoWorld) = db demoWorld.
Proof.
  by apply (@readers_leave_store demoPlatform).
Defined.

Lemma removeCollection_cascade_witness :
  map_collections
    <$> maps (db (removeCollection "u1" "m1" "Trips" demoWorld).2) !! "m1"
    = Some [mkCollection "Food" []]
  ∧ pins (db (removeCollection "u1" "m1" "Trips" demoWorld).2) !! "p1" = None.
Proof.
  destruct (removeCollection_cascade "u1" "m1" demoWorld demoMap1)
    with (t := "Trips") (k := 0%nat) (col := mkCollection "Trips" ["p1"])
    as (_ & Hmap & Hgone & _);
    [done|done|reflexivity|reflexivity|done|apply demo_firstTitled_Trips
    |reflexivity|].
  split; [by rewrite Hmap|]. apply Hgone. by left.
Defined.

Lemma removeCollection_missing_witness :
  isLogicError (removeCollection "u1" "m1" "Beach" demoWorld).1.
Proof.
  destruct (removeCollection_missing "u1" "m1" demoWorld demoMap1)
    with (t := "Beach") as [Hfails _];
    [done|done|reflexivity|reflexivity|done| |done].
  unfold titlesOf; simpl.
  by intros [?|[?|?%elem_of_nil]%elem_of_cons]%elem_of_cons.
Defined.

Lemma createCollection_then_removeCollection_witness :
  (createCollection "u1" "m1" "Beach" demoWorld).1 = Ok 3%nat
  ∧ maps (db (removeCollection "u1" "m1" "Beach"
                (createCollection "u1" "m1" "Beach" demoWorld).2).2)
    = maps (db demoWorld).
Proof.
  destruct (createCollection_then_removeCollection "u1" "m1" demoWorld demoMap1)
    with (t := "Beach") as (Hcount & Hmaps & _);
    [done|done|reflexivity|reflexivity|done| |by split].
  unfold titlesOf; simpl.
  by intros [?|[?|?%elem_of_nil]%elem_of_cons]%elem_of_cons.
Defined.

Lemma createCollection_duplicate_then_removeCollection_witness :
  map_collections
    <$> maps (db (removeCollection "u1" "m1" "Trips"
                    (createCollection "u1" "m1" "Trips" demoWorld).2).2)
          !! "m1"
    = Some [mkCollection "Food" []; mkCollection "Trips" []].
Proof.
  by destruct (createCollection_duplicate_then_removeCollection "u1" "m1"
                 demoWorld demoMap1)
    with (t := "Trips") (k := 0%nat) (col := mkCollection "Trips" ["p1"])
    as [Hcollections _];
    [done|done|reflexivity|reflexivity|done|apply demo_firstTitled_Trips
    |reflexivity|].
Defined.

Lemma updateCollection_missing_witness :
  isLogicError (updateCollection "u1" "m1" "Beach" "Hills" demoWorld).1.
Proof.
  destruct (updateCollection_missing "u1" "m1" "Beach" "Hills" demoWorld
              demoMap1) as [Hfails _];
    [done|done|done|done|reflexivity|reflexivity| |done].
  unfold titlesOf; simpl.
  by intros [?|[?|?%elem_of_nil]%elem_of_cons]%elem_of_cons.
Defined.

Lemma createPin_links_witness :
  ∃ id w' m',
    @createPin demoPlatform "u1" "m1" "Food" demoNewPin demoWorld = (Ok id, w')
    ∧ pins (db w') !! id
        = Some (pinOf "u1" "m1" demoPinData (mkCoordinates (43 # 1) (-8 # 1)))
    ∧ pins (db w') !! "p1" = Some (demoPin "u1" "m1")
    ∧ maps (db w') !! "m1" = Some m'
    ∧ map_collections m' !! 1%nat = Some (mkCollection "Food" [id]).
Proof.
  destruct (@createPin_links demoPlatform "u1" "m1" demoWorld demoMap1 "Food"
              1%nat (mkCollection "Food" []))
    with (newPin := demoNewPin) (c := mkCoordinates (43 # 1) (-8 # 1))
    as (id & w' & m' & Hrun & Hpin & Hkeep & Hmap & Hcol & _);
    [done|done|done|reflexivity|reflexivity|apply demo_firstTitled_Food
    |reflexivity|reflexivity|reflexivity|].
  exists id, w', m'. split; [done|]. split; [done|].
  split; [by apply Hkeep|]. by split.
Defined.

Lemma createPin_then_retrieveUserMap_witness :
  ∃ id w' view before,
    @createPin demoPlatform "u1" "m1" "Trips" demoNewPin demoWorld = (Ok id, w')
    ∧ (retrieveUserMap "u1" "m1" w').1 = Ok view
    ∧ mv_collections view !! 0%nat
        = Some (mkCollectionView "Trips"
                  (before ++ [(id, pinOf "u1" "m1" demoPinData
                                     (mkCoordinates (43 # 1) (-8 # 1)))])).
Proof.
  apply (@createPin_then_retrieveUserMap demoPlatform "u1" "m1" demoWorld
           demoMap1 "Trips" 0%nat (mkCollection "Trips" ["p1"]));
    [done|done|done|reflexivity|reflexivity|apply demo_firstTitled_Trips
    |reflexivity|reflexivity].
Defined.

Lemma createPin_rejects_witness :
  isLogicError (@createPin demoPlatform "u1" "m1" "Food"
                  (mkNewPin demoPinData None) demoWorld).1
  ∧ db (@createPin demoPlatform "u1" "m1" "Food"
          (mkNewPin demoPinData None) demoWorld).2 = db demoWorld.
Proof.
  apply (@createPin_rejects demoPlatform "u1" "m1" demoWorld demoMap1 "Food");
    [done|done|done|reflexivity|reflexivity|by right].
Defined.

Lemma createPin_removeCollection_updatePin_witness :
  ∃ id w',
    @createPin demoPlatform "u1" "m1" "Food" demoNewPin demoWorld = (Ok id, w')
    ∧ isLogicError
        (updatePin "u1" id demoPinData
           (removeCollection "u1" "m1" "Food" w').2).1.
Proof.
  destruct (@createPin_removeCollection_updatePin demoPlatform "u1" "m1"
              demoWorld demoMap1 "Food" 1%nat (mkCollection "Food" []))
    with (newPin := demoNewPin) (c := mkCoordinates (43 # 1) (-8 # 1))
         (data := demoPinData)
    as (id & w' & Hrun & _ & Hfails);
    [done|done|done|reflexivity|reflexivity|apply demo_firstTitled_Food
    |reflexivity|reflexivity|done|].
  by exists id, w'.
Defined.

Lemma updatePin_overwrites_witness :
  (∃ p', pins (db (updatePin "u1" "p1" demoPinData demoWorld).2) !! "p1"
           = Some p'
         ∧ pin_title p' = Some "Lighthouse"
         ∧ pin_urlImage p' = None
         ∧ pin_coordinates p' = mkCoordinates (41 # 1) (2 # 1))
  ∧ isLogicError (updatePin "u2" "p1" demoPinData demoWorld).1.
Proof.
  split.
  - destruct (updatePin_overwrites "u1" "p1" demoPinData demoWorld
                (demoPin "u1" "m1")) as [Hown _]; [done|done|reflexivity|].
    destruct Hown
      as (p' & _ & Hstored & Htitle & _ & Hurl & _ & _ & _ & _ & _ & _
          & Hcoordinates & _); [reflexivity|].
    exists p'. by repeat split.
  - destruct (updatePin_overwrites "u2" "p1" demoPinData demoWorld
                (demoPin "u1" "m1")) as [_ Hother]; [done|done|reflexivity|].
    by apply Hother.
Defined.

Lemma removeMap_cascade_witness :
  (removeMap "u1" "m1" demoWorld).1 = Ok (Some demoMap1)
  ∧ (pins (db (removeMap "u1" "m1" demoWorld).2) !! "p1"
       = Some (demoPin "u1" "m1") → False)
  ∧ (retrieveUserMap "u1" "m1" (removeMap "u1" "m1" demoWorld).2).1
    = Err (LogicError "no maps for user with id m1").
Proof.
  destruct (removeMap_cascade "u1" "m1" demoWorld demoMap1)
    as (Hret & _ & Hpins & _ & _ & _ & Hgone);
    [done|done|reflexivity|reflexivity|].
  split; [done|]. split; [|exact Hgone].
  intros Hp. apply Hpins in Hp as [_ Hp]. by apply Hp.
Defined.

Lemma removePin_dangling_witness :
  map_collections
    <$> maps (db (removePin "u1" "p1" demoWorld).2) !! "m1"
    = Some [mkCollection "Trips" ["p1"]; mkCollection "Food" []]
  ∧ pins (db (removePin "u1" "p1" demoWorld).2) !! "p1" = None.
Proof.
  destruct (removePin_dangling "u1" "p1" demoWorld (demoPin "u1" "m1"))
    as (Hmaps & Hgone & _); [done|done|reflexivity|reflexivity|].
  split; [by rewrite Hmaps|done].
Defined.

Lemma updateMap_idempotent_witness :
  maps (db (updateMap "u1" "m1" demoMapData
              (updateMap "u1" "m1" demoMapData demoWorld).2).2)
  = maps (db (updateMap "u1" "m1" demoMapData demoWorld).2).
Proof.
  by destruct (updateMap_idempotent "u1" "m1" demoMapData demoWorld demoMap1)
    as [_ Hmaps]; [done|done|reflexivity|reflexivity|].
Defined.

Lemma exec_pinsBelong_witness :
  pinsBelong
    (db (@exec demoPlatform (OpCreatePin "u1" "m1" "Food" demoNewPin)
           demoWorld))
  ∧ pinsBelong (db (@exec demoPlatform (OpRemoveMap "u1" "m1") demoWorld)).
Proof.
  split.
  - apply (@exec_pinsBelong demoPlatform demoWorld);
      [apply demoWorld_pinsBelong|reflexivity].
  - apply (@exec_pinsBelong demoPlatform demoWorld);
      [apply demoWorld_pinsBelong|reflexivity].
Defined.

End DemoExtras.
